(** * ContextFlow: the context playground's sequence store and gesture resolver

    Shallow embedding of [client/src/pages/ContextPlayground.tsx]: the
    [messages] / [activeId] / [draggedType] state of the [ContextPlayground]
    component, its handlers [handleDragStart], [handleDragEnd] and
    [handleDelete], the reset button, and the derived usage figures
    [totalTokens], [maxContext] and [usagePercent].

    Conventions.
    - A JavaScript array is a [list] of slots; a slot is [Some v] or [None],
      the latter standing for [undefined].  The state is typed
      [MessageBlock[]] but [arrayMove] can write [undefined] into it, so the
      run-time shape is what is modelled.
    - Reading a property of [undefined] throws a [TypeError]; handlers and
      callbacks live in the [result] monad.
    - [nanoid()] and [Math.random()] are inputs of the handler ([Entropy]).
      The draw is a binary64 number and [Math.random() * 20] is the
      binary64 product, rounded to nearest even ([SFmul] of the standard
      library's [SpecFloat]).
    - Token counts are integers ([Z]); JavaScript numbers agree with them
      below 2^53.
    - [handleDelete] is a closure over the [messages] of the render that
      created it ([handleDelete_of]); [handleDelete st] is the one of the
      render of [st]. *)

From Stdlib Require Import ZArith QArith SpecFloat String Bool List Lia Permutation.
Import ListNotations.
Local Open Scope Z_scope.

(** ** Exceptions *)

Inductive result (A : Type) : Type :=
| Ok (a : A)
| TypeError.

Arguments Ok {A} a.
Arguments TypeError {A}.

Definition bind {A B : Type} (c : result A) (k : A -> result B) : result B :=
  match c with
  | Ok a => k a
  | TypeError => TypeError
  end.

Notation "x <- c ;; k" := (bind c (fun x => k))
  (at level 61, c at next level, right associativity).

(** ** JavaScript arrays *)

Module Js.

(** A slot of an array: [None] is [undefined]. *)
Definition array (T : Type) : Type := list (option T).

Definition length {A : Type} (l : list A) : Z := Z.of_nat (List.length l).

(** [Array.prototype.slice()] without arguments: a shallow copy. *)
Definition slice {A : Type} (l : list A) : list A := l.

(** [Array.prototype.splice(start, deleteCount, ...items)]: the first
    component is the array after the call, the second the removed
    elements (the return value).  A negative [start] counts from the end
    and is clamped at 0, a large one is clamped at the length. *)
Definition splice {A : Type} (l : list A) (start deleteCount : Z)
    (items : list A) : list A * list A :=
  let len := length l in
  let actualStart :=
    if start <? 0 then Z.max (len + start) 0 else Z.min start len in
  let actualDeleteCount := Z.min (Z.max deleteCount 0) (len - actualStart) in
  let k := Z.to_nat actualStart in
  let d := Z.to_nat actualDeleteCount in
  (firstn k l ++ items ++ skipn (k + d) l, firstn d (skipn k l)).

(** [a[0]]: [undefined] when the array is empty. *)
Definition head {T : Type} (a : array T) : option T :=
  match a with
  | [] => None
  | x :: _ => x
  end.

(** [Array.prototype.findIndex]: the first index whose element satisfies
    the callback, or -1. *)
Fixpoint findIndex_from {A : Type} (p : A -> result bool) (l : list A)
    (k : Z) : result Z :=
  match l with
  | [] => Ok (-1)
  | x :: l' =>
      b <- p x ;;
      if b then Ok k else findIndex_from p l' (k + 1)
  end.

Definition findIndex {A : Type} (p : A -> result bool) (l : list A)
    : result Z :=
  findIndex_from p l 0.

(** [Array.prototype.filter]. *)
Fixpoint filter {A : Type} (p : A -> result bool) (l : list A)
    : result (list A) :=
  match l with
  | [] => Ok []
  | x :: l' =>
      b <- p x ;;
      r <- filter p l' ;;
      Ok (if b then x :: r else r)
  end.

(** [Array.prototype.reduce] with an initial value. *)
Fixpoint reduce {A B : Type} (f : B -> A -> result B) (l : list A)
    (acc : B) : result B :=
  match l with
  | [] => Ok acc
  | x :: l' =>
      acc' <- f acc x ;;
      reduce f l' acc'
  end.

(** [Array.prototype.find]: the first element satisfying the callback, or
    [undefined]. *)
Fixpoint find {T : Type} (p : option T -> result bool) (a : array T)
    : result (option T) :=
  match a with
  | [] => Ok None
  | x :: a' =>
      b <- p x ;;
      if b then Ok x else find p a'
  end.

(** [Array.prototype.map]. *)
Fixpoint map {A B : Type} (f : A -> result B) (l : list A)
    : result (list B) :=
  match l with
  | [] => Ok []
  | x :: l' =>
      y <- f x ;;
      r <- map f l' ;;
      Ok (y :: r)
  end.

End Js.

(** [arrayMove] is imported from the dependency [@dnd-kit/sortable]; its
    source is not part of the repository.  It is embedded from the
    package's [utilities/arrayMove.ts]:
<<
  export function arrayMove<T>(array: T[], from: number, to: number): T[] {
    const newArray = array.slice();
    newArray.splice(
      to < 0 ? newArray.length + to : to,
      0,
      newArray.splice(from, 1)[0]
    );
    return newArray;
  }
>>
    The arguments of the outer [splice] are evaluated left to right, so the
    position is computed from the length before the inner [splice] removes
    an element. *)
Definition arrayMove {T : Type} (array : Js.array T) (from to : Z)
    : Js.array T :=
  let newArray := Js.slice array in
  let position := if to <? 0 then Js.length newArray + to else to in
  let '(newArray, removed) := Js.splice newArray from 1 [] in
  fst (Js.splice newArray position 0 [Js.head removed]).

(** ** Types *)

Inductive BlockType : Type := user | assistant | system.

Record MessageBlock : Type := {
  id : string;
  type : BlockType;
  content : string;
  tokens : Z
}.

(** Property reads on a slot. *)
Definition get_id (m : option MessageBlock) : result string :=
  match m with
  | Some b => Ok (id b)
  | None => TypeError
  end.

Definition get_tokens (m : option MessageBlock) : result Z :=
  match m with
  | Some b => Ok (tokens b)
  | None => TypeError
  end.

(** ** Initial data *)

Definition INITIAL_BLOCKS : Js.array MessageBlock :=
  [ Some {| id := "system-1"; type := system;
            content := "You are a helpful AI assistant."; tokens := 7 |} ].

(** ** Drag events of [@dnd-kit/core], as far as the handlers read them *)

(** [active.data.current].  [SourceBlock] attaches [{ type, isSource: true }]
    through [useDraggable]; [SortableMessage] goes through [useSortable],
    whose data has no [isSource] field. *)
Inductive DragData : Type :=
| SourceData (ty : BlockType)
| SortableData.

Record Active : Type := {
  active_id : string;
  data_current : option DragData
}.

Record DragStartEvent : Type := { start_active : Active }.

(** [over] is [null] when the drag ends outside every droppable; otherwise
    only its [id] is read. *)
Record DragEndEvent : Type := {
  active : Active;
  over : option string
}.

(** ** Numbers of the draw: binary64 *)

Definition prec : Z := 53.
Definition emax : Z := 1024.

(** The binary64 product [x * y]. *)
Definition mul64 (x y : spec_float) : spec_float := SFmul prec emax x y.

(** The literal [20]: 5 * 2^50 * 2^-48. *)
Definition twenty : spec_float := S754_finite false 5629499534213120 (-48).

(** [Math.floor] of a finite number, as an integer.  The infinities and
    NaN have no integer; they are sent to 0 here and never arise below
    (lemma [times20_range]). *)
Definition Math_floor (x : spec_float) : Z :=
  match x with
  | S754_finite s m e =>
      if 0 <=? e then cond_Zopp s (Zpos m) * 2 ^ e
      else cond_Zopp s (Zpos m) / 2 ^ (- e)
  | _ => 0
  end.

(** What [Math.random()] returns: a binary64 number at least 0 and below
    1.  A canonical mantissa [m] with exponent [e] is below 1 exactly when
    [e <= -53] (lemma [unit_draw_below_one]). *)
Definition unit_draw (r : spec_float) : bool :=
  match r with
  | S754_zero false => true
  | S754_finite false m e => bounded prec emax m e && (e <=? -53)
  | _ => false
  end.

Definition SFfinite (x : spec_float) : bool :=
  match x with
  | S754_zero _ | S754_finite _ _ _ => true
  | _ => false
  end.

(** [b] is [a] shifted right by [n] bits, as [shr] of [SpecFloat] does it:
    the mantissa is divided by [2 ^ n], and the round bit is set only if
    at least half a unit was cut off. *)
Definition shifted (n : Z) (a b : shr_record) : Prop :=
  shr_m b = shr_m a / 2 ^ n /\
  (shr_r b = true -> 2 * (2 ^ n * shr_m b) + 2 ^ n <= 2 * shr_m a).

(** The two sources of randomness read by [handleDragEnd]. *)
Record Entropy : Type := {
  nanoid : string;
  Math_random : spec_float
}.

(** ** Component state *)

Record State : Type := {
  messages : Js.array MessageBlock;
  activeId : option string;
  draggedType : option BlockType
}.

Definition initialState : State :=
  {| messages := INITIAL_BLOCKS; activeId := None; draggedType := None |}.

Definition setActiveId (st : State) (v : option string) : State :=
  {| messages := messages st; activeId := v; draggedType := draggedType st |}.

Definition setDraggedType (st : State) (v : option BlockType) : State :=
  {| messages := messages st; activeId := activeId st; draggedType := v |}.

(** [setMessages(value)] *)
Definition setMessages (st : State) (v : Js.array MessageBlock) : State :=
  {| messages := v; activeId := activeId st; draggedType := draggedType st |}.

(** [setMessages(updater)]: the updater runs on the current array. *)
Definition updateMessages (st : State)
    (f : Js.array MessageBlock -> result (Js.array MessageBlock))
    : result State :=
  items <- f (messages st) ;;
  Ok (setMessages st items).

(** ** Derived usage figures *)

Definition totalTokens (messages : Js.array MessageBlock) : result Z :=
  Js.reduce (fun acc msg => t <- get_tokens msg ;; Ok (acc + t)) messages 0.

Definition maxContext : Z := 4096.

(** [totalTokens / maxContext], the usage ratio; the source names only its
    product with 100, [usagePercent]. *)
Definition usageRatio (totalTokens : Z) : Q :=
  (inject_Z totalTokens / inject_Z maxContext)%Q.

Definition usagePercent (totalTokens : Z) : Q :=
  (usageRatio totalTokens * 100)%Q.

(** ** Handlers *)

Definition handleDragStart (st : State) (event : DragStartEvent) : State :=
  let a := start_active event in
  let st := setActiveId st (Some (active_id a)) in
  match data_current a with
  | Some (SourceData ty) => setDraggedType st (Some ty)
  | _ => st
  end.

(** The content of a new block, by kind. *)
Definition template (ty : BlockType) : string :=
  match ty with
  | user => "Can you explain quantum computing simply?"
  | assistant => "Quantum computing uses quantum bits or qubits..."
  | system => "You are an expert in physics."
  end.

Definition newBlock (ty : BlockType) (env : Entropy) : MessageBlock :=
  {| id := nanoid env;
     type := ty;
     content := template ty;
     tokens := Math_floor (mul64 (Math_random env) twenty) + 5 |}.

(** The updater of the reorder branch, for [active.id] and [over.id]. *)
Definition reorder (activeId_ overId_ : string)
    (items : Js.array MessageBlock) : result (Js.array MessageBlock) :=
  oldIndex <- Js.findIndex
                (fun i => x <- get_id i ;; Ok (String.eqb x activeId_)) items ;;
  newIndex <- Js.findIndex
                (fun i => x <- get_id i ;; Ok (String.eqb x overId_)) items ;;
  Ok (arrayMove items oldIndex newIndex).

Definition handleDragEnd (st : State) (event : DragEndEvent) (env : Entropy)
    : result State :=
  let st := setActiveId st None in
  let st := setDraggedType st None in
  match over event with
  | None => Ok st
  | Some over_id =>
      match data_current (active event) with
      | Some (SourceData ty) =>
          updateMessages st (fun items => Ok (items ++ [Some (newBlock ty env)]))
      | _ =>
          if negb (String.eqb (active_id (active event)) over_id)
          then updateMessages st (reorder (active_id (active event)) over_id)
          else Ok st
      end
  end.

(** [setMessages(messages.filter(m => m.id !== id))].  The handler is
    created anew by every render and closes over the [messages] of that
    render: [captured].  A row keeps the handler of the render that last
    rendered it, so a row that is leaving the list (still mounted for its
    exit animation) calls a handler whose [captured] is older than the
    state [st] the call finds. *)
Definition handleDelete_of (captured : Js.array MessageBlock) (st : State)
    (id_ : string) : result State :=
  items <- Js.filter
             (fun m => x <- get_id m ;; Ok (negb (String.eqb x id_)))
             captured ;;
  Ok (setMessages st items).

(** The handler of the render of [st] itself: the one the rows of the
    current list call. *)
Definition handleDelete (st : State) (id_ : string) : result State :=
  handleDelete_of (messages st) st id_.

(** The reset button: [setMessages(INITIAL_BLOCKS)]. *)
Definition handleReset (st : State) : State :=
  setMessages st INITIAL_BLOCKS.

(** ** Events and reachable states *)

Inductive Event : Type :=
| DragStart (event : DragStartEvent)
| DragEnd (event : DragEndEvent) (env : Entropy)
| Delete (id_ : string)
| Reset.

Definition dispatch (st : State) (ev : Event) : result State :=
  match ev with
  | DragStart event => Ok (handleDragStart st event)
  | DragEnd event env => handleDragEnd st event env
  | Delete id_ => handleDelete st id_
  | Reset => Ok (handleReset st)
  end.

(** The ids of the blocks held by an array. *)
Definition ids_of (a : Js.array MessageBlock) : list string :=
  flat_map (fun m => match m with Some b => [id b] | None => [] end) a.

(** What the environment guarantees about an event.
    - A palette drop consumes [Math.random()], a binary64 number in
      [0, 1).  Nothing is asked of the id [nanoid()] returns.
    - The only droppables are the [SortableMessage] rows rendered from
      [messages] ([SourceBlock] is draggable only), so a reorder drop has a
      target only while the sequence is non-empty.  Nothing is asked of the
      two ids themselves. *)
Definition admissible (st : State) (ev : Event) : Prop :=
  match ev with
  | DragEnd event env =>
      match over event, data_current (active event) with
      | None, _ => True
      | Some _, Some (SourceData _) => unit_draw (Math_random env) = true
      | Some _, _ => messages st <> []
      end
  | _ => True
  end.

(** The id a palette drop gets from [nanoid()] is carried by no block of
    the sequence.  The code does not check it. *)
Definition fresh_id (st : State) (ev : Event) : Prop :=
  match ev with
  | DragEnd event env =>
      match over event, data_current (active event) with
      | Some _, Some (SourceData _) =>
          ~ In (nanoid env) (ids_of (messages st))
      | _, _ => True
      end
  | _ => True
  end.


(** The states the handlers reach.  [reachable_step] runs a handler of the
    current render.  [reachable_leaving] is a click on the delete button
    of a row that is leaving: [AnimatePresence] keeps such a row mounted
    with the [onDelete] of the last render that drew it, which filters the
    [messages] of that earlier state [st0] (any reachable state is allowed
    for it here, which covers every earlier one). *)
Inductive reachable : State -> Prop :=
| reachable_init : reachable initialState
| reachable_step (st st' : State) (ev : Event) :
    reachable st ->
    admissible st ev ->
    dispatch st ev = Ok st' ->
    reachable st'
| reachable_leaving (st st0 st' : State) (id_ : string) :
    reachable st ->
    reachable st0 ->
    handleDelete_of (messages st0) st id_ = Ok st' ->
    reachable st'.

(** The states reached when every [nanoid()] call returns an unused id. *)
Inductive reachable_fresh : State -> Prop :=
| reachable_fresh_init : reachable_fresh initialState
| reachable_fresh_step (st st' : State) (ev : Event) :
    reachable_fresh st ->
    admissible st ev ->
    fresh_id st ev ->
    dispatch st ev = Ok st' ->
    reachable_fresh st'
| reachable_fresh_leaving (st st0 st' : State) (id_ : string) :
    reachable_fresh st ->
    reachable_fresh st0 ->
    handleDelete_of (messages st0) st id_ = Ok st' ->
    reachable_fresh st'.

(** ** Sequences of blocks

    The view of the specification: a sequence is a list of blocks, an
    array all of whose slots are filled. *)

Definition of_blocks (l : list MessageBlock) : Js.array MessageBlock :=
  map Some l.

(** Sum of the token costs, as the specification words it. *)
Definition sum_tokens (l : list MessageBlock) : Z :=
  fold_right Z.add 0 (map tokens l).

(** Position of the first block carrying id [x]. *)
Fixpoint index_of (x : string) (l : list MessageBlock) : option nat :=
  match l with
  | [] => None
  | b :: l' =>
      if String.eqb (id b) x then Some 0%nat
      else option_map S (index_of x l')
  end.

(** The stable array move of the specification: take the element at
    position [i] out, put an element in at position [j]. *)
Definition remove_at {A : Type} (i : nat) (l : list A) : list A :=
  firstn i l ++ skipn (S i) l.

Definition insert_at {A : Type} (j : nat) (x : A) (l : list A) : list A :=
  firstn j l ++ x :: skipn j l.

(** The index [arrayMove] ends up using for an index returned by
    [findIndex] on an array of length [len]: -1 stands for the last one. *)
Definition slot_of (len : nat) (k : Z) : nat :=
  if k <? 0 then (len - 1)%nat else Z.to_nat k.

(** The position [arrayMove] uses for id [x] in a sequence of blocks: that
    of the first block carrying [x], the last position when there is
    none. *)
Definition position_of (x : string) (l : list MessageBlock) : nat :=
  match index_of x l with
  | Some n => n
  | None => (length l - 1)%nat
  end.

(** ** Gestures and sample data *)

Definition type_name (ty : BlockType) : string :=
  match ty with
  | user => "user"
  | assistant => "assistant"
  | system => "system"
  end.

(** The palette entry [SourceBlock type]: id [`source-${type}`], data
    [{ type, isSource: true }]. *)
Definition sourceActive (ty : BlockType) : Active :=
  {| active_id := "source-" ++ type_name ty;
     data_current := Some (SourceData ty) |}.

(** A row [SortableMessage] of the list. *)
Definition sortableActive (id_ : string) : Active :=
  {| active_id := id_; data_current := Some SortableData |}.

Definition paletteDrop (ty : BlockType) (target : string) : DragEndEvent :=
  {| active := sourceActive ty; over := Some target |}.

(** [move(sourceId, targetId)]: an existing row dropped over a row. *)
Definition moveDrop (sourceId targetId : string) : DragEndEvent :=
  {| active := sortableActive sourceId; over := Some targetId |}.

Definition mkState (l : list MessageBlock) (a : option string)
    (d : option BlockType) : State :=
  {| messages := of_blocks l; activeId := a; draggedType := d |}.

Definition idle (l : list MessageBlock) : State := mkState l None None.

Definition initialBlock : MessageBlock :=
  {| id := "system-1"; type := system;
     content := "You are a helpful AI assistant."; tokens := 7 |}.

Definition blockA : MessageBlock :=
  {| id := "a"; type := user; content := template user; tokens := 5 |}.
Definition blockB : MessageBlock :=
  {| id := "b"; type := assistant; content := template assistant; tokens := 11 |}.
Definition blockC : MessageBlock :=
  {| id := "c"; type := system; content := template system; tokens := 24 |}.

(** The draw 0.5 = 2^52 * 2^-53. *)
Definition env0 : Entropy :=
  {| nanoid := "V1StGXR8_Z5jdHi6B-myT";
     Math_random := S754_finite false 4503599627370496 (-53) |}.

(** The draw 0.7, the binary64 number 6305039478318694 * 2^-53. *)
Definition env07 : Entropy :=
  {| nanoid := "Uakgb_J5m9g-0JDMbcJqL";
     Math_random := S754_finite false 6305039478318694 (-53) |}.

(** The state after a [user] palette entry is dropped over the initial
    block. *)
Definition twoBlocks : State := idle [initialBlock; newBlock user env0].

(** The state after two palette drops to which [nanoid()] gave the same
    id. *)
Definition sameIdTwice : State :=
  idle [initialBlock; newBlock user env0; newBlock assistant env0].

(** ** What the component renders

    The expressions of the returned JSX that depend on the state: the rows,
    the empty-list placeholder, the usage bar and the drag overlay.  Class
    names, icons and animation are left out. *)

(** JavaScript truthiness of [activeId]: [null] and the empty string are
    falsy. *)
Definition truthy (v : option string) : bool :=
  match v with
  | Some s => negb (String.eqb s "")
  | None => false
  end.

(** [SortableMessage({ message, onDelete })] starts with
    [useSortable({ id: message.id })], which throws on [undefined]; it then
    shows [message.type], [message.tokens] and [message.content]. *)
Definition SortableMessage (message : option MessageBlock)
    : result MessageBlock :=
  match message with
  | Some b => Ok b
  | None => TypeError
  end.

(** The children handed to [DragOverlay], as elements: the element
    [<SortableMessage message={messages.find(m => m.id === activeId)!} />]
    when [activeId] is set and [draggedType] is not, the element
    [<SourceBlock type={draggedType} />] when [draggedType] is set.
    Creating an element evaluates its props ([find] runs) but does not run
    the component: [message] may be [undefined]. *)
Inductive Overlay : Type :=
| RowOverlay (message : option MessageBlock)
| SourceOverlay (ty : BlockType).

Definition dragOverlay (st : State) : result (list Overlay) :=
  row <- match activeId st, draggedType st with
         | Some activeId_, None =>
             if truthy (Some activeId_) then
               m <- Js.find
                      (fun m => x <- get_id m ;; Ok (String.eqb x activeId_))
                      (messages st) ;;
               Ok [RowOverlay m]
             else Ok []
         | _, _ => Ok []
         end ;;
  Ok (row ++ match draggedType st with
             | Some ty => [SourceOverlay ty]
             | None => []
             end).

(** [Math.max] on two numbers. *)
Definition Math_max (x y : Q) : Q := if Qle_bool x y then y else x.

(** The width of the usage bar, in percent:
    [Math.max(usagePercent, 2)]. *)
Definition barWidth (totalTokens : Z) : Q :=
  Math_max (usagePercent totalTokens) 2.

(** [DragOverlay] of [@dnd-kit/core], a dependency: it renders its
    children only while the library has an active drag ([active] of its
    context, set from the drag-start to the drag-end or the cancel).
    Rendering the row element runs [SortableMessage]. *)
Definition mountOverlay (o : Overlay) : result Overlay :=
  match o with
  | RowOverlay m => b <- SortableMessage m ;; Ok (RowOverlay (Some b))
  | SourceOverlay ty => Ok (SourceOverlay ty)
  end.

Definition DragOverlay (active : bool) (children : list Overlay)
    : result (list Overlay) :=
  if active then Js.map mountOverlay children else Ok [].

(** One render of [ContextPlayground]: what its own body evaluates.
    [view_overlay] holds the children handed to [DragOverlay]. *)
Record View : Type := {
  view_rows : list MessageBlock;
  view_placeholder : bool;
  view_totalTokens : Z;
  view_barWidth : Q;
  view_overlay : list Overlay
}.

Definition render (st : State) : result View :=
  total <- totalTokens (messages st) ;;
  rows <- Js.map SortableMessage (messages st) ;;
  overlay <- dragOverlay st ;;
  Ok {| view_rows := rows;
        view_placeholder := Js.length (messages st) =? 0;
        view_totalTokens := total;
        view_barWidth := barWidth total;
        view_overlay := overlay |}.

(** One render of the page: the component and, inside it, [DragOverlay];
    [dndActive] tells whether the library has an active drag. *)
Definition renderPage (dndActive : bool) (st : State)
    : result (View * list Overlay) :=
  v <- render st ;;
  shown <- DragOverlay dndActive (view_overlay v) ;;
  Ok (v, shown).

(** The view of a sequence of blocks with the overlay children [o]. *)
Definition view_of (l : list MessageBlock) (o : list Overlay) : View :=
  {| view_rows := l;
     view_placeholder := match l with [] => true | _ => false end;
     view_totalTokens := sum_tokens l;
     view_barWidth := barWidth (sum_tokens l);
     view_overlay := o |}.

(** ** Runs of events *)

Fixpoint run (st : State) (evs : list Event) : result State :=
  match evs with
  | [] => Ok st
  | ev :: evs' =>
      st' <- dispatch st ev ;;
      run st' evs'
  end.

(** A palette drop of kind [ty] over [target] with the draws [env]. *)
Definition dropOf (d : BlockType * string * Entropy) : Event :=
  let '(ty, target, env) := d in DragEnd (paletteDrop ty target) env.

Definition blockOf (d : BlockType * string * Entropy) : MessageBlock :=
  let '(ty, _, env) := d in newBlock ty env.

(** * Proofs *)

(** ** The monad *)

Lemma bind_Ok (A B : Type) (a : A) (k : A -> result B) :
  bind (Ok a) k = k a.
Proof. reflexivity. Qed.

(** ** Taking out and putting in at a position *)

Section Positions.
Context {A : Type}.
Implicit Types (l : list A) (x : A) (i j : nat).

Lemma nth_error_cut l i x :
  nth_error l i = Some x -> l = firstn i l ++ x :: skipn (S i) l.
Proof.
  revert l; induction i as [|i IH]; intros [|y l] H; simpl in *;
    try discriminate.
  - now inversion H.
  - f_equal. now apply IH.
Qed.

Lemma remove_at_length l i :
  (i < length l)%nat -> length (remove_at i l) = (length l - 1)%nat.
Proof.
  intros H. unfold remove_at.
  rewrite length_app, length_firstn, length_skipn. lia.
Qed.

Lemma remove_at_perm l i x :
  nth_error l i = Some x -> Permutation (x :: remove_at i l) l.
Proof.
  intros H. rewrite (nth_error_cut l i x H) at 2.
  unfold remove_at. apply Permutation_middle.
Qed.

Lemma insert_at_perm l j x : Permutation (insert_at j x l) (x :: l).
Proof.
  unfold insert_at. symmetry.
  rewrite <- (firstn_skipn j l) at 1. apply Permutation_middle.
Qed.

Lemma insert_at_nth l j x :
  (j <= length l)%nat -> nth_error (insert_at j x l) j = Some x.
Proof.
  intros H. unfold insert_at.
  rewrite nth_error_app2; rewrite length_firstn, Nat.min_l by lia; [|lia].
  now rewrite Nat.sub_diag.
Qed.

Lemma remove_insert_at l j x :
  (j <= length l)%nat -> remove_at j (insert_at j x l) = l.
Proof.
  revert l; induction j as [|j IH]; intros l H.
  - reflexivity.
  - destruct l as [|y l]; simpl in H; [lia|].
    change (y :: remove_at j (insert_at j x l) = y :: l).
    f_equal. apply IH. lia.
Qed.

Lemma move_perm l i j x :
  nth_error l i = Some x ->
  Permutation l (insert_at j x (remove_at i l)).
Proof.
  intros H. symmetry.
  rewrite insert_at_perm. now apply remove_at_perm.
Qed.

(** Taking the last element out and putting it back at the end, or any
    element out and back in at its own position, changes nothing. *)
Lemma move_same l i x :
  nth_error l i = Some x -> insert_at i x (remove_at i l) = l.
Proof.
  revert l; induction i as [|i IH]; intros [|y l] H; simpl in H;
    try discriminate.
  - now inversion H.
  - change (y :: insert_at i x (remove_at i l) = y :: l).
    f_equal. now apply IH.
Qed.

Lemma insert_at_end l x : insert_at (length l) x l = l ++ [x].
Proof.
  unfold insert_at. now rewrite firstn_all, skipn_all.
Qed.

End Positions.

(** ** [splice] and [arrayMove] *)

Section Splice.
Context {A : Type}.
Implicit Types (l : list A).

Lemma slot_of_lt l (k : Z) :
  l <> [] -> -1 <= k < Js.length l ->
  (slot_of (length l) k < length l)%nat.
Proof.
  intros Hl Hk. unfold slot_of, Js.length in *.
  assert (length l <> 0%nat) by (destruct l; simpl; congruence).
  destruct (Z.ltb_spec k 0); lia.
Qed.

(** [l.splice(from, 1)] for an index returned by [findIndex]. *)
Lemma splice_remove l (from : Z) :
  l <> [] -> -1 <= from < Js.length l ->
  Js.splice l from 1 [] =
    (remove_at (slot_of (length l) from) l,
     firstn 1 (skipn (slot_of (length l) from) l)).
Proof.
  intros Hl Hk. pose proof (slot_of_lt l from Hl Hk) as Hs.
  unfold Js.splice, slot_of, Js.length, remove_at in *.
  destruct (Z.ltb_spec from 0) as [Hneg|Hpos].
  - replace (Z.max (Z.of_nat (length l) + from) 0)
      with (Z.of_nat (length l - 1)) by lia.
    rewrite Nat2Z.id.
    replace (Z.to_nat (Z.min (Z.max 1 0)
               (Z.of_nat (length l) - Z.of_nat (length l - 1))))
      with 1%nat by lia.
    now rewrite Nat.add_1_r.
  - replace (Z.min from (Z.of_nat (length l))) with from by lia.
    replace (Z.to_nat (Z.min (Z.max 1 0) (Z.of_nat (length l) - from)))
      with 1%nat by lia.
    now rewrite Nat.add_1_r.
Qed.

(** [l.splice(j, 0, x)] for a position inside the array or at its end. *)
Lemma splice_insert l (j : nat) (x : A) :
  (j <= length l)%nat ->
  Js.splice l (Z.of_nat j) 0 [x] = (insert_at j x l, []).
Proof.
  intros Hj. unfold Js.splice, Js.length, insert_at.
  destruct (Z.ltb_spec (Z.of_nat j) 0) as [Hneg|_]; [lia|].
  replace (Z.min (Z.of_nat j) (Z.of_nat (length l)))
    with (Z.of_nat j) by lia.
  rewrite Nat2Z.id.
  replace (Z.to_nat (Z.min (Z.max 0 0) (Z.of_nat (length l) - Z.of_nat j)))
    with 0%nat by lia.
  now rewrite Nat.add_0_r.
Qed.

End Splice.

Lemma head_firstn_skipn (T : Type) (a : Js.array T) (i : nat) :
  Js.head (firstn 1 (skipn i a)) = nth i a None.
Proof.
  revert a; induction i as [|i IH]; intros [|x a]; try reflexivity.
  apply IH.
Qed.

(** On a non-empty array, with indices as [findIndex] returns them,
    [arrayMove] takes the slot at [from] out (the last one for -1) and puts
    it in at [to] (at the end for -1). *)
Lemma arrayMove_slots (T : Type) (a : Js.array T) (from to : Z) :
  a <> [] -> -1 <= from < Js.length a -> -1 <= to < Js.length a ->
  arrayMove a from to =
    insert_at (slot_of (length a) to)
      (nth (slot_of (length a) from) a None)
      (remove_at (slot_of (length a) from) a).
Proof.
  intros Ha Hfrom Hto. unfold arrayMove, Js.slice.
  rewrite (splice_remove a from Ha Hfrom).
  pose proof (slot_of_lt a from Ha Hfrom) as Hi.
  pose proof (slot_of_lt a to Ha Hto) as Hj.
  replace (if to <? 0 then Js.length a + to else to)
    with (Z.of_nat (slot_of (length a) to)).
  - rewrite splice_insert by (rewrite remove_at_length; lia).
    now rewrite head_firstn_skipn.
  - unfold slot_of, Js.length in *.
    destruct (Z.ltb_spec to 0); lia.
Qed.

(** On the empty array [arrayMove] writes [undefined]. *)
Lemma arrayMove_empty (T : Type) (from to : Z) :
  arrayMove (@nil (option T)) from to = [None].
Proof.
  unfold arrayMove, Js.slice, Js.splice.
  rewrite !firstn_nil, !skipn_nil. simpl.
  now rewrite ?firstn_nil, ?skipn_nil.
Qed.

(** ** Arrays of blocks *)

Lemma of_blocks_length (l : list MessageBlock) :
  length (of_blocks l) = length l.
Proof. apply length_map. Qed.

Lemma of_blocks_nth (l : list MessageBlock) (i : nat) :
  nth i (of_blocks l) None = nth_error l i.
Proof.
  revert l; induction i as [|i IH]; intros [|b l]; try reflexivity.
  apply IH.
Qed.

Lemma of_blocks_remove_at (l : list MessageBlock) (i : nat) :
  remove_at i (of_blocks l) = of_blocks (remove_at i l).
Proof.
  unfold remove_at, of_blocks. now rewrite map_app, firstn_map, skipn_map.
Qed.

Lemma of_blocks_insert_at (l : list MessageBlock) (j : nat) (b : MessageBlock) :
  insert_at j (Some b) (of_blocks l) = of_blocks (insert_at j b l).
Proof.
  unfold insert_at, of_blocks.
  now rewrite map_app, firstn_map, map_cons, skipn_map.
Qed.

Lemma ids_of_blocks (l : list MessageBlock) : ids_of (of_blocks l) = map id l.
Proof.
  induction l as [|b l IH]; simpl; [reflexivity|]. now rewrite <- IH.
Qed.

(** ** [index_of] *)

Lemma index_of_lt (x : string) (l : list MessageBlock) (n : nat) :
  index_of x l = Some n -> (n < length l)%nat.
Proof.
  revert n; induction l as [|b l IH]; intros n H; simpl in *.
  - discriminate.
  - destruct (String.eqb (id b) x).
    + inversion H. lia.
    + destruct (index_of x l) as [m|]; simpl in H; inversion H.
      specialize (IH m eq_refl). lia.
Qed.

Lemma index_of_nth (x : string) (l : list MessageBlock) (n : nat) :
  index_of x l = Some n -> exists b, nth_error l n = Some b /\ id b = x.
Proof.
  revert n; induction l as [|b l IH]; intros n H; simpl in *.
  - discriminate.
  - destruct (String.eqb_spec (id b) x) as [Heq|Hne].
    + inversion H. exists b. now split.
    + destruct (index_of x l) as [m|]; simpl in H; inversion H.
      apply (IH m eq_refl).
Qed.

Lemma index_of_None (x : string) (l : list MessageBlock) :
  index_of x l = None <-> ~ In x (map id l).
Proof.
  induction l as [|b l IH]; simpl.
  - tauto.
  - destruct (String.eqb_spec (id b) x) as [Heq|Hne].
    + split; [discriminate | intros H; exfalso; apply H; now left].
    + destruct (index_of x l) as [m|]; simpl.
      * split; [discriminate|]. intros H. exfalso. apply H. right.
        destruct (in_dec string_dec x (map id l)) as [Hin|Hnin];
          [assumption | now apply IH in Hnin].
      * split; [|reflexivity]. intros _ [H|H]; [congruence|].
        now apply (proj1 IH).
Qed.

(** With unique ids, the position of a block is the position of its id. *)
Lemma index_of_NoDup (l : list MessageBlock) (n : nat) (b : MessageBlock) :
  NoDup (map id l) -> nth_error l n = Some b -> index_of (id b) l = Some n.
Proof.
  revert n; induction l as [|c l IH]; intros n Hnd Hn.
  - destruct n; discriminate.
  - simpl in Hnd. inversion Hnd as [|? ? Hnotin Hnd']; subst.
    destruct n as [|n]; simpl in *.
    + inversion Hn; subst. now rewrite String.eqb_refl.
    + destruct (String.eqb_spec (id c) (id b)) as [Heq|Hne].
      * exfalso. apply Hnotin. rewrite Heq.
        apply in_map. eapply nth_error_In; eassumption.
      * now rewrite (IH n Hnd' Hn).
Qed.

(** ** Callbacks on arrays of blocks never throw *)

Lemma findIndex_from_blocks (x : string) (l : list MessageBlock) (k : Z) :
  Js.findIndex_from (fun i => y <- get_id i ;; Ok (String.eqb y x))
    (of_blocks l) k
  = Ok (match index_of x l with
        | Some n => k + Z.of_nat n
        | None => -1
        end).
Proof.
  revert k; induction l as [|b l IH]; intros k; simpl.
  - reflexivity.
  - destruct (String.eqb (id b) x).
    + f_equal. lia.
    + rewrite IH. destruct (index_of x l) as [n|]; simpl; f_equal. lia.
Qed.

Lemma findIndex_blocks (x : string) (l : list MessageBlock) :
  Js.findIndex (fun i => y <- get_id i ;; Ok (String.eqb y x)) (of_blocks l)
  = Ok (match index_of x l with
        | Some n => Z.of_nat n
        | None => -1
        end).
Proof.
  unfold Js.findIndex. rewrite findIndex_from_blocks.
  now destruct (index_of x l).
Qed.

Lemma filter_blocks (u : string) (l : list MessageBlock) :
  Js.filter (fun m => x <- get_id m ;; Ok (negb (String.eqb x u)))
    (of_blocks l)
  = Ok (of_blocks (filter (fun b => negb (String.eqb (id b) u)) l)).
Proof.
  induction l as [|b l IH].
  - reflexivity.
  - cbn [of_blocks map Js.filter]. fold (of_blocks l). rewrite IH.
    cbn. now destruct (String.eqb (id b) u).
Qed.

Lemma filter_absent (u : string) (l : list MessageBlock) :
  ~ In u (map id l) ->
  filter (fun b => negb (String.eqb (id b) u)) l = l.
Proof.
  induction l as [|b l IH]; simpl; intros H.
  - reflexivity.
  - destruct (String.eqb_spec (id b) u) as [Heq|Hne]; simpl.
    + exfalso. apply H. now left.
    + f_equal. apply IH. tauto.
Qed.

Lemma reduce_blocks (l : list MessageBlock) (acc : Z) :
  Js.reduce (fun acc msg => t <- get_tokens msg ;; Ok (acc + t))
    (of_blocks l) acc
  = Ok (acc + sum_tokens l).
Proof.
  revert acc; induction l as [|b l IH]; intros acc.
  - cbn. f_equal. lia.
  - cbn [of_blocks map Js.reduce get_tokens bind]. fold (of_blocks l).
    rewrite IH. f_equal. unfold sum_tokens. simpl. lia.
Qed.

Lemma totalTokens_blocks (l : list MessageBlock) :
  totalTokens (of_blocks l) = Ok (sum_tokens l).
Proof. unfold totalTokens. now rewrite reduce_blocks. Qed.

Lemma sum_tokens_perm (l l' : list MessageBlock) :
  Permutation l l' -> sum_tokens l = sum_tokens l'.
Proof.
  unfold sum_tokens.
  induction 1; simpl; lia.
Qed.

(** ** The reorder updater on a sequence of blocks *)

Lemma position_of_lt (x : string) (l : list MessageBlock) :
  l <> [] -> (position_of x l < length l)%nat.
Proof.
  intros Hl. unfold position_of.
  destruct (index_of x l) as [n|] eqn:E.
  - now apply index_of_lt in E.
  - destruct l; simpl; [congruence | lia].
Qed.

Lemma reorder_blocks (s t : string) (l : list MessageBlock) (b : MessageBlock) :
  nth_error l (position_of s l) = Some b ->
  reorder s t (of_blocks l)
  = Ok (of_blocks (insert_at (position_of t l) b
                     (remove_at (position_of s l) l))).
Proof.
  intros Hb.
  assert (Hl : l <> []) by (intros ->; destruct (position_of s []); discriminate).
  assert (Ha : of_blocks l <> []) by (destruct l; simpl; congruence).
  unfold reorder. rewrite !findIndex_blocks, !bind_Ok.
  assert (Hidx : forall x,
            -1 <= match index_of x l with
                  | Some n => Z.of_nat n
                  | None => -1
                  end < Js.length (of_blocks l) /\
            slot_of (length (of_blocks l))
              match index_of x l with
              | Some n => Z.of_nat n
              | None => -1
              end = position_of x l).
  { intros x. unfold Js.length, slot_of, position_of.
    rewrite of_blocks_length.
    destruct (index_of x l) as [n|] eqn:E.
    - apply index_of_lt in E.
      destruct (Z.ltb_spec (Z.of_nat n) 0); lia.
    - assert (length l <> 0%nat) by (destruct l; simpl; congruence).
      simpl. lia. }
  rewrite arrayMove_slots by (try assumption; apply Hidx).
  rewrite !(proj2 (Hidx _)).
  rewrite of_blocks_nth, Hb, of_blocks_remove_at, of_blocks_insert_at.
  reflexivity.
Qed.

(** On the empty sequence the updater leaves a single [undefined]. *)
Lemma reorder_empty (s t : string) : reorder s t (of_blocks []) = Ok [None].
Proof.
  unfold reorder. simpl. now rewrite arrayMove_empty.
Qed.

(** So a reorder drop between two different ids on the empty sequence
    leaves an array on which [totalTokens] throws. *)
Lemma handleDragEnd_empty_reorder (a : option string) (d : option BlockType)
    (s t : string) (env : Entropy) :
  s <> t ->
  handleDragEnd (mkState [] a d) (moveDrop s t) env
  = Ok {| messages := [None]; activeId := None; draggedType := None |}
  /\ totalTokens [None] = TypeError.
Proof.
  intros Hne. split; [|reflexivity].
  unfold handleDragEnd, moveDrop. simpl.
  apply String.eqb_neq in Hne. rewrite Hne. simpl.
  unfold updateMessages. cbn [messages setDraggedType setActiveId mkState].
  now rewrite (reorder_empty s t).
Qed.

Lemma reorder_total (s t : string) (l : list MessageBlock) :
  exists items, reorder s t (of_blocks l) = Ok items.
Proof.
  unfold reorder. rewrite !findIndex_blocks, !bind_Ok. eexists. reflexivity.
Qed.

(** ** Handlers on a sequence of blocks *)

Lemma handleDragEnd_cancel (st : State) (a : Active) (env : Entropy) :
  handleDragEnd st {| active := a; over := None |} env
  = Ok {| messages := messages st; activeId := None; draggedType := None |}.
Proof. reflexivity. Qed.

Lemma handleDragEnd_source (st : State) (aid target : string)
    (ty : BlockType) (env : Entropy) :
  handleDragEnd st
    {| active := {| active_id := aid; data_current := Some (SourceData ty) |};
       over := Some target |} env
  = Ok {| messages := messages st ++ [Some (newBlock ty env)];
          activeId := None; draggedType := None |}.
Proof. reflexivity. Qed.

(** A drag whose [data.current] is [undefined] is handled like that of a
    row: [?.isSource] is falsy in both cases. *)
Lemma handleDragEnd_no_data (st : State) (aid : string) (o : option string)
    (env : Entropy) :
  handleDragEnd st
    {| active := {| active_id := aid; data_current := None |}; over := o |} env
  = handleDragEnd st {| active := sortableActive aid; over := o |} env.
Proof. reflexivity. Qed.

Lemma handleDragEnd_self (st : State) (x : string) (env : Entropy) :
  handleDragEnd st (moveDrop x x) env
  = Ok {| messages := messages st; activeId := None; draggedType := None |}.
Proof.
  unfold handleDragEnd, moveDrop. simpl. now rewrite String.eqb_refl.
Qed.

Lemma handleDragEnd_reorder (st : State) (s t : string) (env : Entropy) :
  s <> t ->
  handleDragEnd st (moveDrop s t) env
  = items <- reorder s t (messages st) ;;
    Ok {| messages := items; activeId := None; draggedType := None |}.
Proof.
  intros Hst. unfold handleDragEnd, moveDrop. simpl.
  apply String.eqb_neq in Hst. now rewrite Hst.
Qed.

Lemma handleDragEnd_move (l : list MessageBlock) (a : option string)
    (d : option BlockType) (s t : string) (env : Entropy) (b : MessageBlock) :
  s <> t ->
  nth_error l (position_of s l) = Some b ->
  handleDragEnd (mkState l a d) (moveDrop s t) env
  = Ok (idle (insert_at (position_of t l) b (remove_at (position_of s l) l))).
Proof.
  intros Hst Hb. rewrite handleDragEnd_reorder by assumption.
  unfold mkState at 1. cbn [messages].
  now rewrite (reorder_blocks s t l b Hb).
Qed.

Lemma handleDelete_of_blocks (c l : list MessageBlock) (a : option string)
    (d : option BlockType) (u : string) :
  handleDelete_of (of_blocks c) (mkState l a d) u
  = Ok (mkState (filter (fun b => negb (String.eqb (id b) u)) c) a d).
Proof.
  unfold handleDelete_of, mkState. now rewrite filter_blocks.
Qed.

Lemma handleDelete_blocks (l : list MessageBlock) (a : option string)
    (d : option BlockType) (u : string) :
  handleDelete (mkState l a d) u
  = Ok (mkState (filter (fun b => negb (String.eqb (id b) u)) l) a d).
Proof.
  unfold handleDelete. cbn [messages mkState].
  apply (handleDelete_of_blocks l l a d u).
Qed.

(** Every handler returns on a sequence of blocks. *)
Lemma handleDragEnd_total (l : list MessageBlock) (a : option string)
    (d : option BlockType) (event : DragEndEvent) (env : Entropy) :
  exists items,
    handleDragEnd (mkState l a d) event env
    = Ok {| messages := items; activeId := None; draggedType := None |}.
Proof.
  destruct event as [[aid data] [target|]].
  - destruct data as [[ty|]|].
    + eexists. apply handleDragEnd_source.
    + destruct (string_dec aid target) as [->|Hne].
      * eexists. apply (handleDragEnd_self _ target).
      * change {| active := {| active_id := aid;
                               data_current := Some SortableData |};
                  over := Some target |} with (moveDrop aid target).
        rewrite handleDragEnd_reorder by assumption.
        unfold mkState. cbn [messages].
        destruct (reorder_total aid target l) as [items ->].
        eexists. reflexivity.
    + rewrite handleDragEnd_no_data.
      change {| active := sortableActive aid; over := Some target |}
        with (moveDrop aid target).
      destruct (string_dec aid target) as [->|Hne].
      * eexists. apply (handleDragEnd_self _ target).
      * rewrite handleDragEnd_reorder by assumption.
        unfold mkState. cbn [messages].
        destruct (reorder_total aid target l) as [items ->].
        eexists. reflexivity.
  - eexists. apply handleDragEnd_cancel.
Qed.

(** ** The token cost of a new block

    The product [Math.random() * 20] in binary64, through the shifts and
    the rounding of [SFmul]. *)

Lemma digits2_pos_bounds (p : positive) :
  2 ^ (Zpos (digits2_pos p) - 1) <= Zpos p < 2 ^ Zpos (digits2_pos p).
Proof.
  induction p as [p IH|p IH|]; cbn [digits2_pos].
  - rewrite Pos2Z.inj_succ.
    replace (Z.succ (Zpos (digits2_pos p)) - 1) with (Z.succ (Zpos (digits2_pos p) - 1)) by lia.
    rewrite !Z.pow_succ_r by lia. lia.
  - rewrite Pos2Z.inj_succ.
    replace (Z.succ (Zpos (digits2_pos p)) - 1) with (Z.succ (Zpos (digits2_pos p) - 1)) by lia.
    rewrite !Z.pow_succ_r by lia. lia.
  - simpl. lia.
Qed.

Lemma digits2_pos_le (p : positive) (k : Z) :
  0 <= k -> Zpos p < 2 ^ k -> Zpos (digits2_pos p) <= k.
Proof.
  intros Hk Hp. destruct (digits2_pos_bounds p) as [Hlo _].
  destruct (Z_le_gt_dec (Zpos (digits2_pos p)) k) as [H|H]; [exact H|].
  exfalso. assert (2 ^ k <= 2 ^ (Zpos (digits2_pos p) - 1))
    by (apply Z.pow_le_mono_r; lia). lia.
Qed.

Lemma Zdigits2_le (z k : Z) :
  0 <= z -> 0 <= k -> z < 2 ^ k -> Zdigits2 z <= k.
Proof.
  intros Hz Hk H. destruct z as [|p|p]; simpl; [lia| |lia].
  now apply digits2_pos_le.
Qed.

(** One step of the right shift. *)
Lemma shr_1_spec (mrs : shr_record) :
  0 <= shr_m mrs ->
  shr_m (shr_1 mrs) = shr_m mrs / 2 /\
  (shr_r (shr_1 mrs) = true -> 2 * shr_m (shr_1 mrs) + 1 <= shr_m mrs).
Proof.
  destruct mrs as [m r s]. cbn [shr_m]. intros Hm.
  rewrite <- Z.div2_div.
  destruct m as [|[p|p|]|p]; cbn; try lia; split; try reflexivity;
    try discriminate; intros _; lia.
Qed.

Lemma shifted_trans (n k : Z) (a b c : shr_record) :
  0 <= n -> 0 <= k -> 0 <= shr_m a ->
  shifted n a b -> shifted k b c -> shifted (n + k) a c.
Proof.
  intros Hn Hk Ha [Hb Hrb] [Hc Hrc]. split.
  - rewrite Hc, Hb, Z.pow_add_r by lia. apply Z.div_div; lia.
  - intros Hr. specialize (Hrc Hr).
    assert (Hpn : 0 < 2 ^ n) by (apply Z.pow_pos_nonneg; lia).
    assert (Hle : 2 ^ n * shr_m b <= shr_m a).
    { rewrite Hb. apply Z.mul_div_le. lia. }
    rewrite Z.pow_add_r by lia. clear Hb Hc Hrb.
    set (X := 2 ^ n) in *. set (Y := 2 ^ k) in *.
    clearbody X Y.
    assert (X * (2 * (Y * shr_m c) + Y) <= X * (2 * shr_m b))
      by (apply Z.mul_le_mono_nonneg_l; lia).
    nia.
Qed.

Lemma iter_shr_1 (p : positive) (a : shr_record) :
  0 <= shr_m a -> shifted (Zpos p) a (iter_pos shr_1 p a).
Proof.
  assert (Hone : forall a, 0 <= shr_m a -> shifted 1 a (shr_1 a)).
  { intros b Hb. destruct (shr_1_spec b Hb) as [Hm Hr]. split.
    - now rewrite Hm.
    - intros H. specialize (Hr H). change (2 ^ 1) with 2. lia. }
  assert (Hpos : forall n a b, 0 <= n -> 0 <= shr_m a -> shifted n a b -> 0 <= shr_m b).
  { intros n b c Hn Hb [Hc _]. rewrite Hc.
    apply Z.div_pos; [lia | apply Z.pow_pos_nonneg; lia]. }
  revert a; induction p as [p IH|p IH|]; intros a Ha; cbn [iter_pos].
  - pose proof (Hone a Ha) as H1.
    pose proof (Hpos 1 _ _ ltac:(lia) Ha H1) as Ha1.
    pose proof (IH _ Ha1) as H2.
    pose proof (Hpos (Zpos p) _ _ ltac:(lia) Ha1 H2) as Ha2.
    pose proof (IH _ Ha2) as H3.
    replace (Zpos p~1) with (1 + (Zpos p + Zpos p)) by lia.
    apply (shifted_trans 1 _ a (shr_1 a)); try lia; try assumption.
    apply (shifted_trans _ _ _ (iter_pos shr_1 p (shr_1 a))); try lia; assumption.
  - pose proof (IH _ Ha) as H2.
    pose proof (Hpos (Zpos p) _ _ ltac:(lia) Ha H2) as Ha2.
    pose proof (IH _ Ha2) as H3.
    replace (Zpos p~0) with (Zpos p + Zpos p) by lia.
    apply (shifted_trans _ _ _ (iter_pos shr_1 p a)); try lia; assumption.
  - now apply Hone.
Qed.

Lemma shr_spec (mrs : shr_record) (e n : Z) :
  0 <= shr_m mrs -> shr_r mrs = false ->
  shifted (Z.max 0 n) mrs (fst (shr mrs e n)) /\
  snd (shr mrs e n) = e + Z.max 0 n.
Proof.
  intros Hm Hr. destruct n as [|p|p]; cbn [shr fst snd].
  - split; [|lia]. split; [now rewrite Z.div_1_r | congruence].
  - split; [|lia]. now apply iter_shr_1.
  - split; [|lia]. split; [now rewrite Z.div_1_r | congruence].
Qed.

Lemma round_nearest_even_bounds (mrs : shr_record) :
  shr_m mrs <= round_nearest_even (shr_m mrs) (loc_of_shr_record mrs)
    <= shr_m mrs + (if shr_r mrs then 1 else 0).
Proof.
  destruct mrs as [m [|] [|]]; cbn; try lia.
  destruct (Z.even m); lia.
Qed.

Lemma bounded_facts (m : positive) (e : Z) :
  bounded prec emax m e = true -> -1074 <= e /\ Zpos m < 2 ^ 53.
Proof.
  unfold bounded, canonical_mantissa, fexp, emin, prec, emax.
  intros H. apply andb_true_iff in H. destruct H as [H _].
  apply Z.eqb_eq in H.
  destruct (digits2_pos_bounds m) as [_ Hhi].
  assert (Hd : Zpos (digits2_pos m) <= 53) by lia.
  split; [lia|].
  eapply Z.lt_le_trans; [exact Hhi|].
  apply Z.pow_le_mono_r; lia.
Qed.

Lemma times20_range (m : positive) (e : Z) :
  bounded prec emax m e = true -> e <= -53 ->
  SFfinite (mul64 (S754_finite false m e) twenty) = true /\
  0 <= Math_floor (mul64 (S754_finite false m e) twenty) <= 19.
Proof.
  intros Hb He. destruct (bounded_facts m e Hb) as [Hemin Hm].
  unfold mul64, SFmul, twenty. cbn [xorb].
  set (P := Zpos (m * 5629499534213120)).
  assert (HP : P = Zpos m * 5629499534213120) by (unfold P; lia).
  assert (HP0 : 0 < P) by (unfold P; lia).
  assert (HP106 : P < 2 ^ 106).
  { rewrite HP. change (2 ^ 106) with (2 ^ 53 * 2 ^ 53).
    change (2 ^ 53) with 9007199254740992 in *. nia. }
  unfold binary_round_aux, shr_fexp.
  set (ep := e + -48).
  cbn [shr_record_of_loc].
  set (n1 := fexp prec emax (Zdigits2 P + ep) - ep).
  assert (Hn1 : Z.max 0 n1 <= 53).
  { assert (Zdigits2 P <= 106) by (apply Zdigits2_le; lia).
    unfold n1, fexp, emin, prec, emax, ep. lia. }
  destruct (shr_spec {| shr_m := P; shr_r := false; shr_s := false |} ep n1)
    as [[Hm1 Hr1] He1]; [cbn; lia | reflexivity |].
  destruct (shr {| shr_m := P; shr_r := false; shr_s := false |} ep n1)
    as [mrs1 e1]. cbn [fst snd shr_m] in Hm1, Hr1, He1.
  set (k1 := Z.max 0 n1) in *.
  assert (Hk1 : 0 <= k1) by (unfold k1; lia).
  assert (Hp1 : 0 < 2 ^ k1) by (apply Z.pow_pos_nonneg; lia).
  assert (Hm1lo : 0 <= shr_m mrs1)
    by (rewrite Hm1; apply Z.div_pos; lia).
  assert (Hm1hi : 2 ^ k1 * shr_m mrs1 <= P)
    by (rewrite Hm1; apply Z.mul_div_le; lia).
  pose proof (round_nearest_even_bounds mrs1) as Hrne.
  set (m2 := round_nearest_even (shr_m mrs1) (loc_of_shr_record mrs1)) in *.
  assert (Hm2lo : 0 <= m2) by lia.
  assert (Hm2 : 2 * (2 ^ k1 * m2) <= 2 * P + 2 ^ k1).
  { destruct (shr_r mrs1).
    - specialize (Hr1 eq_refl).
      assert (m2 <= shr_m mrs1 + 1) by lia.
      assert (2 ^ k1 * m2 <= 2 ^ k1 * (shr_m mrs1 + 1))
        by (apply Z.mul_le_mono_nonneg_l; lia).
      lia.
    - assert (m2 = shr_m mrs1) by lia. subst m2. lia. }
  assert (Hp53 : 2 ^ k1 <= 2 ^ 53) by (apply Z.pow_le_mono_r; lia).
  assert (Hm2hi : m2 < 2 ^ 107).
  { assert (shr_m mrs1 <= P).
    { assert (1 * shr_m mrs1 <= 2 ^ k1 * shr_m mrs1)
        by (apply Z.mul_le_mono_nonneg_r; lia). lia. }
    change (2 ^ 107) with (2 * 2 ^ 106).
    destruct (shr_r mrs1); lia. }
  set (n2 := fexp prec emax (Zdigits2 m2 + e1) - e1).
  destruct (shr_spec {| shr_m := m2; shr_r := false; shr_s := false |} e1 n2)
    as [[Hm3 _] He3]; [cbn; lia | reflexivity |].
  destruct (shr {| shr_m := m2; shr_r := false; shr_s := false |} e1 n2)
    as [mrs3 e3]. cbn [fst snd shr_m] in Hm3, He3.
  set (k2 := Z.max 0 n2) in *.
  assert (Hk2 : 0 <= k2) by (unfold k2; lia).
  assert (Hp2 : 0 < 2 ^ k2) by (apply Z.pow_pos_nonneg; lia).
  assert (Hm3lo : 0 <= shr_m mrs3)
    by (rewrite Hm3; apply Z.div_pos; lia).
  assert (Hm3hi : 2 ^ k2 * shr_m mrs3 <= m2)
    by (rewrite Hm3; apply Z.mul_div_le; lia).
  assert (He3hi : e3 <= 971).
  { assert (Zdigits2 m2 <= 107) by (apply Zdigits2_le; lia).
    unfold k2, n2, fexp, emin, prec, emax in He3.
    unfold ep in He1. lia. }
  (* the bound, in units of [2 ^ ep] *)
  set (a := - ep).
  assert (Ha : 101 <= a) by (unfold a, ep; lia).
  assert (He3a : e3 = k1 + k2 - a) by (unfold a; lia).
  assert (Hpa : 2 ^ 101 <= 2 ^ a) by (apply Z.pow_le_mono_r; lia).
  assert (Hbound : 2 ^ k1 * (2 ^ k2 * shr_m mrs3) < 20 * 2 ^ a).
  { assert (2 ^ k1 * (2 ^ k2 * shr_m mrs3) <= 2 ^ k1 * m2)
      by (apply Z.mul_le_mono_nonneg_l; lia).
    assert (2 * P + 2 ^ 53 < 2 * (20 * 2 ^ 101)).
    { rewrite HP. change (2 ^ 53) with 9007199254740992 in *.
      change (2 ^ 101) with 2535301200456458802993406410752. lia. }
    lia. }
  destruct (shr_m mrs3) as [|m3|m3] eqn:E3; [split; [reflexivity|cbn; lia] | | lia].
  assert (Hle : (e3 <=? emax - prec) = true)
    by (apply Z.leb_le; unfold emax, prec; lia).
  rewrite Hle. split; [reflexivity|].
  unfold Math_floor. cbn [cond_Zopp].
  destruct (Z.leb_spec 0 e3) as [Hpos|Hneg].
  - assert (0 < 2 ^ e3) by (apply Z.pow_pos_nonneg; lia).
    assert (Hsplit : 2 ^ k1 * 2 ^ k2 = 2 ^ e3 * 2 ^ a).
    { rewrite <- !Z.pow_add_r by lia. f_equal. lia. }
    assert (0 < 2 ^ a) by (apply Z.pow_pos_nonneg; lia).
    assert (Zpos m3 * 2 ^ e3 * 2 ^ a < 20 * 2 ^ a) by nia.
    assert (Zpos m3 * 2 ^ e3 < 20)
      by (apply (Z.mul_lt_mono_pos_r (2 ^ a)); assumption).
    nia.
  - assert (Hq : 0 < 2 ^ (- e3)) by (apply Z.pow_pos_nonneg; lia).
    assert (Hsplit : 2 ^ a = 2 ^ k1 * 2 ^ k2 * 2 ^ (- e3)).
    { rewrite <- !Z.pow_add_r by lia. f_equal. lia. }
    assert (Hk12 : 0 < 2 ^ k1 * 2 ^ k2) by nia.
    assert (Hlt : Zpos m3 < 2 ^ (- e3) * 20).
    { apply (Z.mul_lt_mono_pos_l (2 ^ k1 * 2 ^ k2)); [assumption|]. nia. }
    split.
    + apply Z.div_pos; lia.
    + assert (Zpos m3 / 2 ^ (- e3) < 20)
        by (apply Z.div_lt_upper_bound; assumption).
      lia.
Qed.

(** For a canonical binary64 number, exponent at most -53 means a value
    below 1. *)
Lemma unit_draw_below_one (m : positive) (e : Z) :
  bounded prec emax m e = true ->
  (e <= -53 <-> e < 0 /\ Zpos m < 2 ^ (- e)).
Proof.
  intros Hb. destruct (bounded_facts m e Hb) as [Hemin Hm]. split.
  - intros He. split; [lia|].
    eapply Z.lt_le_trans; [exact Hm|]. apply Z.pow_le_mono_r; lia.
  - intros [Hneg Hlt].
    destruct (Z_le_gt_dec e (-53)) as [H|H]; [exact H|]. exfalso.
    unfold bounded, canonical_mantissa, fexp, emin, prec, emax in Hb.
    apply andb_true_iff in Hb. destruct Hb as [Hb _].
    apply Z.eqb_eq in Hb.
    assert (Hd : Zpos (digits2_pos m) = 53) by lia.
    destruct (digits2_pos_bounds m) as [Hlo _]. rewrite Hd in Hlo.
    assert (2 ^ (- e) <= 2 ^ (53 - 1)) by (apply Z.pow_le_mono_r; lia).
    lia.
Qed.

(** The product of a draw by 20 is finite, and its floor lies between 0
    and 19. *)
Lemma times20_draw (r : spec_float) :
  unit_draw r = true ->
  SFfinite (mul64 r twenty) = true /\
  0 <= Math_floor (mul64 r twenty) <= 19.
Proof.
  destruct r as [[|]| | |[|] m e]; try discriminate.
  - intros _. cbn. split; [reflexivity | lia].
  - cbn [unit_draw]. intros H. apply andb_true_iff in H.
    destruct H as [Hb He]. apply Z.leb_le in He.
    now apply times20_range.
Qed.

Lemma newBlock_tokens_range (ty : BlockType) (env : Entropy) :
  unit_draw (Math_random env) = true -> 5 <= tokens (newBlock ty env) <= 24.
Proof.
  intros H. destruct (times20_draw (Math_random env) H) as [_ Hr].
  unfold newBlock. cbn [tokens]. lia.
Qed.

(** ** Reachable states *)

(** Deleting blocks keeps the remaining ids pairwise different. *)
Lemma NoDup_ids_filter (keep : MessageBlock -> bool) (l : list MessageBlock) :
  NoDup (map id l) -> NoDup (map id (filter keep l)).
Proof.
  intros Hnd. induction l as [|b l IH]; simpl in *.
  - constructor.
  - apply NoDup_cons_iff in Hnd. destruct Hnd as [Hnotin Hnd].
    destruct (keep b); simpl; [|now apply IH].
    apply NoDup_cons; [|now apply IH].
    intros Hin. apply Hnotin.
    apply in_map_iff in Hin. destruct Hin as [c [Hc Hin]].
    apply filter_In in Hin. rewrite <- Hc. apply in_map. tauto.
Qed.

Lemma NoDup_ids_snoc (l : list MessageBlock) (b : MessageBlock) :
  NoDup (map id l) -> ~ In (id b) (map id l) -> NoDup (map id (l ++ [b])).
Proof.
  intros Hnd Hnotin. rewrite map_app. simpl.
  apply NoDup_app; [assumption | repeat constructor; intros [] | ].
  intros x Hx [<-|[]]. contradiction.
Qed.

Lemma state_of_blocks (st : State) (l : list MessageBlock) :
  messages st = of_blocks l -> st = mkState l (activeId st) (draggedType st).
Proof. destruct st; simpl; intros ->; reflexivity. Qed.

Lemma handleDragStart_messages (st : State) (event : DragStartEvent) :
  messages (handleDragStart st event) = messages st.
Proof.
  unfold handleDragStart.
  destruct (data_current (start_active event)) as [[ty|]|]; reflexivity.
Qed.

Lemma of_blocks_app (l l' : list MessageBlock) :
  of_blocks l ++ of_blocks l' = of_blocks (l ++ l').
Proof. unfold of_blocks. now rewrite map_app. Qed.

Lemma moveDrop_permutes (l : list MessageBlock) (a : option string)
    (d : option BlockType) (s t : string) (env : Entropy) (st' : State) :
  l <> [] ->
  handleDragEnd (mkState l a d) (moveDrop s t) env = Ok st' ->
  exists l', st' = idle l' /\ Permutation l l'.
Proof.
  intros Hl H. destruct (string_dec s t) as [->|Hne].
  - rewrite handleDragEnd_self in H. inversion H; subst.
    exists l. split; reflexivity.
  - pose proof (position_of_lt s l Hl) as Hlt.
    destruct (nth_error l (position_of s l)) as [b|] eqn:Hb;
      [|apply nth_error_None in Hb; lia].
    rewrite (handleDragEnd_move l a d s t env b Hne Hb) in H.
    inversion H; subst. eexists. split; [reflexivity|].
    now apply move_perm.
Qed.

(** An admissible drag-end on a sequence of blocks either permutes the
    sequence (possibly leaving it as it is) or is a palette drop and
    appends a block made from a draw in [0, 1). *)
Lemma handleDragEnd_origin (l : list MessageBlock) (a : option string)
    (d : option BlockType) (event : DragEndEvent) (env : Entropy) (st' : State) :
  admissible (mkState l a d) (DragEnd event env) ->
  handleDragEnd (mkState l a d) event env = Ok st' ->
  exists l',
    st' = idle l' /\
    (Permutation l l' \/
     exists ty target,
       over event = Some target /\
       data_current (active event) = Some (SourceData ty) /\
       l' = l ++ [newBlock ty env] /\
       unit_draw (Math_random env) = true).
Proof.
  destruct event as [[aid data] [target|]];
    cbn [admissible over active data_current].
  - destruct data as [[ty|]|].
    + intros Hrange H.
      rewrite handleDragEnd_source in H. inversion H; subst.
      exists (l ++ [newBlock ty env]). split.
      * unfold idle, mkState. cbn [messages]. now rewrite <- of_blocks_app.
      * right. exists ty, target. repeat split. exact Hrange.
    + intros Hl H.
      assert (Hl' : l <> []) by (intros ->; now apply Hl).
      destruct (moveDrop_permutes l a d aid target env st' Hl' H)
        as [l' [-> Hp]].
      exists l'. split; [reflexivity | now left].
    + intros Hl H. rewrite handleDragEnd_no_data in H.
      assert (Hl' : l <> []) by (intros ->; now apply Hl).
      destruct (moveDrop_permutes l a d aid target env st' Hl' H)
        as [l' [-> Hp]].
      exists l'. split; [reflexivity | now left].
  - intros _ H. rewrite handleDragEnd_cancel in H. inversion H; subst.
    exists l. split; [reflexivity | left; reflexivity].
Qed.


(** With unused ids at every palette drop, every reachable state holds a
    sequence of blocks with pairwise different ids. *)
Lemma reachable_fresh_blocks (st : State) :
  reachable_fresh st ->
  exists l, messages st = of_blocks l /\ NoDup (map id l).
Proof.
  induction 1 as [|st st' ev Hreach [l [Hm Hnd]] Hadm Hfresh Hstep
                  |st st0 st' u Hreach [l [Hm Hnd]] Hreach0 [l0 [Hm0 Hnd0]]
                     Hstep].
  - exists [initialBlock]. split; [reflexivity|].
    repeat constructor. intros [].
  - rewrite (state_of_blocks st l Hm) in Hadm, Hfresh, Hstep.
    destruct ev as [event|event env|u|]; cbn [dispatch] in Hstep.
    + inversion Hstep; subst. exists l.
      now rewrite handleDragStart_messages.
    + destruct (handleDragEnd_origin _ _ _ _ _ _ Hadm Hstep)
        as [l' [-> [Hperm|[ty [target [Hov [Hdata [-> _]]]]]]]].
      * exists l'. split; [reflexivity|].
        eapply Permutation_NoDup; [|exact Hnd]. now apply Permutation_map.
      * eexists. split; [reflexivity|]. apply NoDup_ids_snoc; [exact Hnd|].
        cbn [fresh_id] in Hfresh. rewrite Hov, Hdata in Hfresh.
        cbn [mkState messages] in Hfresh.
        now rewrite ids_of_blocks in Hfresh.
    + rewrite handleDelete_blocks in Hstep. inversion Hstep; subst.
      eexists. split; [reflexivity|]. now apply NoDup_ids_filter.
    + inversion Hstep; subst. exists [initialBlock]. split; [reflexivity|].
      repeat constructor. intros [].
  - rewrite (state_of_blocks st l Hm), Hm0, handleDelete_of_blocks in Hstep.
    inversion Hstep; subst.
    eexists. split; [reflexivity|]. now apply NoDup_ids_filter.
Qed.

(** * The claims *)

(** ** C1: unknown ids *)

(** C1, as stated, fails for [move].  On the sequence [a; b; c] the id
    ["zzz"] belongs to no block, yet a reorder drop with ["zzz"] as source
    over ["a"] moves the last block to the front, and a reorder drop of
    ["a"] over the unknown ["zzz"] moves [a] to the end: [findIndex]
    returns -1 and [arrayMove] reads it as "the last position". *)
Lemma move_unknown_id_reorders :
  ~ In "zzz"%string (map id [blockA; blockB; blockC]) /\
  handleDragEnd (idle [blockA; blockB; blockC]) (moveDrop "zzz" "a") env0
    = Ok (idle [blockC; blockA; blockB]) /\
  handleDragEnd (idle [blockA; blockB; blockC]) (moveDrop "a" "zzz") env0
    = Ok (idle [blockB; blockC; blockA]) /\
  idle [blockC; blockA; blockB] <> idle [blockA; blockB; blockC] /\
  idle [blockB; blockC; blockA] <> idle [blockA; blockB; blockC].
Proof.
  split; [|split; [|split; [|split]]].
  - simpl. intros [H|[H|[H|[]]]]; discriminate.
  - reflexivity.
  - reflexivity.
  - discriminate.
  - discriminate.
Qed.

(** C1, amended.  For every sequence of blocks and every id [u] carried by
    none of them:
    - [handleDelete u], called through the handler of the current render,
      leaves the state as it is; called through the handler of an earlier
      render (a row that is leaving), it sets the sequence to the blocks
      that render had, without those carrying [u];
    - a reorder drop with [u] as source over a present id [t] takes the
      last block out and puts it in at the position of [t];
    - a reorder drop of a present id [s] over [u] moves the block of [s] to
      the end;
    - a reorder drop between [u] and another unknown id leaves a non-empty
      sequence as it is;
    - neither handler throws, whatever the ids. *)
Theorem unknown_id_behaviour :
  forall (l : list MessageBlock) (a : option string) (d : option BlockType)
         (env : Entropy) (u : string),
    ~ In u (map id l) ->
    handleDelete (mkState l a d) u = Ok (mkState l a d) /\
    (forall captured : list MessageBlock,
        handleDelete_of (of_blocks captured) (mkState l a d) u
        = Ok (mkState
                (filter (fun b => negb (String.eqb (id b) u)) captured) a d))
    /\
    (forall (t : string) (j : nat) (b : MessageBlock),
        index_of t l = Some j ->
        nth_error l (length l - 1) = Some b ->
        handleDragEnd (mkState l a d) (moveDrop u t) env
        = Ok (idle (insert_at j b (remove_at (length l - 1) l)))) /\
    (forall (s : string) (i : nat) (b : MessageBlock),
        index_of s l = Some i ->
        nth_error l i = Some b ->
        handleDragEnd (mkState l a d) (moveDrop s u) env
        = Ok (idle (remove_at i l ++ [b]))) /\
    (forall v : string,
        ~ In v (map id l) -> l <> [] ->
        handleDragEnd (mkState l a d) (moveDrop u v) env = Ok (idle l)) /\
    (forall v : string, exists st',
        handleDelete (mkState l a d) v = Ok st') /\
    (forall s t : string, exists st',
        handleDragEnd (mkState l a d) (moveDrop s t) env = Ok st').
Proof.
  intros l a d env u Hu.
  assert (Hpu : position_of u l = (length l - 1)%nat).
  { unfold position_of. apply index_of_None in Hu. now rewrite Hu. }
  repeat split.
  - rewrite handleDelete_blocks. now rewrite filter_absent.
  - intros captured. apply handleDelete_of_blocks.
  - intros t j b Hj Hb.
    assert (Hne : u <> t).
    { intros ->. apply index_of_None in Hu. congruence. }
    rewrite (handleDragEnd_move l a d u t env b Hne) by now rewrite Hpu.
    rewrite Hpu. unfold position_of. now rewrite Hj.
  - intros s i b Hi Hb.
    assert (Hne : s <> u).
    { intros ->. apply index_of_None in Hu. congruence. }
    assert (Hps : position_of s l = i)
      by (unfold position_of; now rewrite Hi).
    rewrite (handleDragEnd_move l a d s u env b Hne) by now rewrite Hps.
    rewrite Hps, Hpu. do 2 f_equal.
    apply index_of_lt in Hi.
    rewrite <- (remove_at_length l i Hi). apply insert_at_end.
  - intros v Hv Hl.
    destruct (string_dec u v) as [<-|Hne].
    + now rewrite handleDragEnd_self.
    + assert (Hpv : position_of v l = (length l - 1)%nat).
      { unfold position_of. apply index_of_None in Hv. now rewrite Hv. }
      pose proof (position_of_lt u l Hl) as Hlt.
      destruct (nth_error l (position_of u l)) as [b|] eqn:Hb;
        [|apply nth_error_None in Hb; lia].
      rewrite (handleDragEnd_move l a d u v env b Hne Hb).
      rewrite Hpv, <- Hpu. now rewrite move_same.
  - intros v. rewrite handleDelete_blocks. eexists. reflexivity.
  - intros s t.
    destruct (handleDragEnd_total l a d (moveDrop s t) env) as [items ->].
    eexists. reflexivity.
Qed.

Lemma unknown_id_behaviour_witness :
  ~ In "zzz"%string (map id [blockA; blockB; blockC]) /\
  handleDelete (mkState [blockA; blockB; blockC] None None) "zzz"
    = Ok (mkState [blockA; blockB; blockC] None None).
Proof.
  assert (H : ~ In "zzz"%string (map id [blockA; blockB; blockC])).
  { simpl. intros [H|[H|[H|[]]]]; discriminate. }
  split; [exact H|].
  apply (unknown_id_behaviour [blockA; blockB; blockC] None None env0 "zzz" H).
Defined.

(** ** C2: the usage aggregate *)



(** ** C3: move *)

(** C3.  Let [s] and [t] be different ids carried by blocks of the
    sequence, at positions [i] and [j] (the first block carrying the id;
    with unique ids, the block carrying it).  A reorder drop of [s] over
    [t] returns the sequence in which the block of [s] stands at position
    [j], the position [t] had before, and in which the other blocks are
    those of the input without position [i], in their order: a stable
    move, not a swap.  The result is a permutation of the input, and
    [totalTokens] is the same. *)
Theorem move_is_stable_array_move :
  forall (l : list MessageBlock) (a : option string) (d : option BlockType)
         (env : Entropy) (s t : string) (i j : nat),
    s <> t ->
    index_of s l = Some i ->
    index_of t l = Some j ->
    exists (b : MessageBlock) (l' : list MessageBlock),
      nth_error l i = Some b /\ id b = s /\
      handleDragEnd (mkState l a d) (moveDrop s t) env = Ok (idle l') /\
      nth_error l' j = Some b /\
      remove_at j l' = remove_at i l /\
      Permutation l l' /\
      totalTokens (of_blocks l') = totalTokens (of_blocks l).
Proof.
  intros l a d env s t i j Hne Hi Hj.
  destruct (index_of_nth s l i Hi) as [b [Hb Hid]].
  assert (Hps : position_of s l = i) by (unfold position_of; now rewrite Hi).
  assert (Hpt : position_of t l = j) by (unfold position_of; now rewrite Hj).
  exists b, (insert_at j b (remove_at i l)).
  pose proof (index_of_lt s l i Hi) as Hilt.
  pose proof (index_of_lt t l j Hj) as Hjlt.
  assert (Hlen : (j <= length (remove_at i l))%nat)
    by (rewrite remove_at_length; lia).
  repeat split; try assumption.
  - rewrite (handleDragEnd_move l a d s t env b Hne) by now rewrite Hps.
    now rewrite Hps, Hpt.
  - now apply insert_at_nth.
  - now apply remove_insert_at.
  - now apply move_perm.
  - rewrite !totalTokens_blocks. f_equal. symmetry.
    apply sum_tokens_perm. now apply move_perm.
Qed.

Lemma move_is_stable_array_move_witness :
  exists (b : MessageBlock) (l' : list MessageBlock),
    nth_error [blockA; blockB; blockC] 0 = Some b /\ id b = "a"%string /\
    handleDragEnd (mkState [blockA; blockB; blockC] None None)
      (moveDrop "a" "c") env0 = Ok (idle l') /\
    nth_error l' 2 = Some b /\
    remove_at 2 l' = remove_at 0 [blockA; blockB; blockC] /\
    Permutation [blockA; blockB; blockC] l' /\
    totalTokens (of_blocks l') = totalTokens (of_blocks [blockA; blockB; blockC]).
Proof.
  apply (move_is_stable_array_move [blockA; blockB; blockC] None None env0
           "a" "c" 0 2).
  - discriminate.
  - reflexivity.
  - reflexivity.
Defined.

(** ** C4: palette drops *)

(** C4.  For every state (whatever its array holds), every kind and every
    target, a drag-end of a palette entry of that kind over the target
    returns the array with one slot more; the added slot is the last one
    and holds a block of that kind whose content is the template of the
    kind and whose token cost lies between 5 and 24; the slots that were
    there keep their position and content.  [Math.random()] is any
    binary64 number in [0, 1), and the cost is computed in binary64. *)
Theorem palette_drop_appends :
  forall (st : State) (ty : BlockType) (aid target : string) (env : Entropy),
    unit_draw (Math_random env) = true ->
    exists b : MessageBlock,
      handleDragEnd st
        {| active := {| active_id := aid;
                        data_current := Some (SourceData ty) |};
           over := Some target |} env
      = Ok {| messages := messages st ++ [Some b];
              activeId := None; draggedType := None |} /\
      length (messages st ++ [Some b]) = S (length (messages st)) /\
      last (messages st ++ [Some b]) None = Some b /\
      id b = nanoid env /\
      type b = ty /\
      content b = match ty with
                  | user => "Can you explain quantum computing simply?"
                  | assistant => "Quantum computing uses quantum bits or qubits..."
                  | system => "You are an expert in physics."
                  end%string /\
      5 <= tokens b <= 24 /\
      (forall k : nat,
          (k < length (messages st))%nat ->
          nth_error (messages st ++ [Some b]) k = nth_error (messages st) k).
Proof.
  intros st ty aid target env Hrnd.
  exists (newBlock ty env).
  split; [apply handleDragEnd_source|].
  split; [rewrite length_app; simpl; lia|].
  split; [apply last_last|].
  split; [reflexivity|].
  split; [reflexivity|].
  split; [now destruct ty|].
  split; [now apply newBlock_tokens_range|].
  intros k Hk. now apply nth_error_app1.
Qed.

Lemma palette_drop_appends_witness :
  unit_draw (Math_random env07) = true /\
  exists b : MessageBlock,
    handleDragEnd initialState (paletteDrop user "system-1") env07
    = Ok {| messages := messages initialState ++ [Some b];
            activeId := None; draggedType := None |} /\
    5 <= tokens b <= 24.
Proof.
  assert (H : unit_draw (Math_random env07) = true) by reflexivity.
  split; [exact H|].
  destruct (palette_drop_appends initialState user "source-user" "system-1"
              env07 H) as [b [Hb [_ [_ [_ [_ [_ [Ht _]]]]]]]].
  exists b. split; [exact Hb | exact Ht].
Defined.

(** At the draw 0.7 the exact product is 14 - 2^-50, which binary64 rounds
    to 14: the new block costs 19 tokens; at the draw 0.5 it costs 15, at
    the largest draw below 1 it costs 24 and at 0 it costs 5. *)
Lemma newBlock_costs :
  tokens (newBlock user env07) = 19 /\
  tokens (newBlock user env0) = 15 /\
  tokens (newBlock user
            {| nanoid := "x";
               Math_random := S754_finite false 9007199254740991 (-53) |})
  = 24 /\
  tokens (newBlock user {| nanoid := "x"; Math_random := S754_zero false |})
  = 5.
Proof. repeat split; vm_compute; reflexivity. Qed.

(** ** C5: unique ids *)

(** C5, as stated, fails when [nanoid()] repeats itself.  The handler
    stores whatever [nanoid()] returns and compares it with nothing: two
    palette drops at which it returns the same string leave two blocks
    with one id, in a state the handlers reach from the initial one. *)
Lemma repeated_nanoid_duplicates :
  reachable sameIdTwice /\
  ~ NoDup (ids_of (messages sameIdTwice)) /\
  exists (i j : nat) (bi bj : MessageBlock),
    nth_error (messages sameIdTwice) i = Some (Some bi) /\
    nth_error (messages sameIdTwice) j = Some (Some bj) /\
    id bi = id bj /\ i <> j.
Proof.
  split; [|split].
  - apply (reachable_step twoBlocks sameIdTwice
             (DragEnd (paletteDrop assistant "system-1") env0)).
    + apply (reachable_step initialState twoBlocks
               (DragEnd (paletteDrop user "system-1") env0)).
      * apply reachable_init.
      * reflexivity.
      * reflexivity.
    + reflexivity.
    + reflexivity.
  - intros Hnd. cbn in Hnd.
    inversion Hnd as [|? ? _ Hnd']. inversion Hnd' as [|? ? Hin _].
    apply Hin. now left.
  - exists 1%nat, 2%nat, (newBlock user env0), (newBlock assistant env0).
    repeat split. discriminate.
Qed.

(** C5, amended.  In every state reached from the initial one by drag-starts,
    drag-ends, deletions and resets in which each palette drop is handed by
    [nanoid()] an id that no block of the sequence carries at that moment,
    the ids of the blocks are pairwise different: two slots holding blocks
    with the same id are the same slot. *)
Theorem ids_unique :
  forall st : State,
    reachable_fresh st ->
    NoDup (ids_of (messages st)) /\
    forall (i j : nat) (bi bj : MessageBlock),
      nth_error (messages st) i = Some (Some bi) ->
      nth_error (messages st) j = Some (Some bj) ->
      id bi = id bj ->
      i = j.
Proof.
  intros st Hreach.
  destruct (reachable_fresh_blocks st Hreach) as [l [Hm Hnd]].
  rewrite Hm, ids_of_blocks. split; [assumption|].
  intros i j bi bj Hi Hj Heq.
  unfold of_blocks in Hi, Hj.
  rewrite nth_error_map in Hi, Hj.
  destruct (nth_error l i) as [ci|] eqn:Ei; [|discriminate].
  destruct (nth_error l j) as [cj|] eqn:Ej; [|discriminate].
  simpl in Hi, Hj. inversion Hi; inversion Hj; subst.
  apply (proj1 (NoDup_nth_error (map id l)) Hnd).
  - rewrite length_map. apply nth_error_Some. congruence.
  - rewrite !nth_error_map, Ei, Ej. simpl. now rewrite Heq.
Qed.

Lemma ids_unique_witness :
  reachable_fresh twoBlocks /\ NoDup (ids_of (messages twoBlocks)).
Proof.
  assert (H : reachable_fresh twoBlocks).
  { apply (reachable_fresh_step initialState twoBlocks
             (DragEnd (paletteDrop user "system-1") env0)).
    - apply reachable_fresh_init.
    - reflexivity.
    - simpl. intros [H|[]]; discriminate.
    - reflexivity. }
  split; [exact H|].
  apply (ids_unique twoBlocks H).
Defined.

(** ** C6: dropping a row on itself *)

(** C6.  For every state and every id [x], a drag-end of the row [x] over
    [x] itself returns the same array, slot for slot: the updater is not
    run at all.  The same holds when the drag carries no data. *)
Theorem move_self_noop :
  forall (st : State) (x : string) (env : Entropy),
    handleDragEnd st (moveDrop x x) env
    = Ok {| messages := messages st; activeId := None; draggedType := None |}
    /\
    handleDragEnd st
      {| active := {| active_id := x; data_current := None |};
         over := Some x |} env
    = Ok {| messages := messages st; activeId := None; draggedType := None |}.
Proof.
  intros st x env. split.
  - apply handleDragEnd_self.
  - rewrite handleDragEnd_no_data. apply (handleDragEnd_self st x env).
Qed.

(** ** C7: cancelled drags *)

(** C7.  For every state, a drag-start followed by a drag-end without
    [over] returns a state with the same array, hence the same
    [totalTokens], and with [activeId] and [draggedType] both [null].  On a
    sequence of blocks every drag-end returns, and returns with both
    cleared, whichever branch it takes. *)
Theorem cancelled_drag_is_pure :
  forall (st : State) (start : DragStartEvent) (a : Active) (env : Entropy),
    (exists st' : State,
        handleDragEnd (handleDragStart st start)
          {| active := a; over := None |} env = Ok st' /\
        messages st' = messages st /\
        totalTokens (messages st') = totalTokens (messages st) /\
        activeId st' = None /\
        draggedType st' = None) /\
    (forall (l : list MessageBlock) (ga : option string)
            (gd : option BlockType) (event : DragEndEvent),
        exists st' : State,
          handleDragEnd (mkState l ga gd) event env = Ok st' /\
          activeId st' = None /\
          draggedType st' = None).
Proof.
  intros st start a env. split.
  - eexists. split; [apply handleDragEnd_cancel|].
    cbn [messages activeId draggedType].
    rewrite handleDragStart_messages. repeat split.
  - intros l ga gd event.
    destruct (handleDragEnd_total l ga gd event env) as [items ->].
    eexists. repeat split.
Qed.

(** ** C8: reset *)

(** C8.  For every state, the reset button leaves an array of length 1
    whose only slot holds the block with id ["system-1"], kind [system],
    content ["You are a helpful AI assistant."] and 7 tokens; [totalTokens]
    is then 7. *)
Theorem reset_deterministic :
  forall st : State,
    messages (handleReset st)
    = [ Some {| id := "system-1"; type := system;
                content := "You are a helpful AI assistant.";
                tokens := 7 |} ] /\
    length (messages (handleReset st)) = 1%nat /\
    totalTokens (messages (handleReset st)) = Ok 7.
Proof. intros st. repeat split. Qed.

(** ** C9: the reorder branch permutes *)

(** C9.  For every non-empty sequence of blocks and every two ids, carried
    by a block or not, the reorder branch returns a permutation of the
    sequence, so [totalTokens] is the same. *)
Theorem reorder_permutes :
  forall (l : list MessageBlock) (a : option string) (d : option BlockType)
         (env : Entropy) (s t : string),
    l <> [] ->
    exists l' : list MessageBlock,
      handleDragEnd (mkState l a d) (moveDrop s t) env = Ok (idle l') /\
      Permutation l l' /\
      totalTokens (of_blocks l') = totalTokens (of_blocks l).
Proof.
  intros l a d env s t Hl.
  destruct (string_dec s t) as [->|Hne].
  - exists l. rewrite handleDragEnd_self. repeat split. reflexivity.
  - pose proof (position_of_lt s l Hl) as Hlt.
    destruct (nth_error l (position_of s l)) as [b|] eqn:Hb;
      [|apply nth_error_None in Hb; lia].
    exists (insert_at (position_of t l) b (remove_at (position_of s l) l)).
    pose proof (move_perm l (position_of s l) (position_of t l) b Hb) as Hp.
    repeat split.
    + now apply handleDragEnd_move.
    + exact Hp.
    + rewrite !totalTokens_blocks. f_equal. symmetry.
      now apply sum_tokens_perm.
Qed.

Lemma reorder_permutes_witness :
  [blockA; blockB; blockC] <> [] /\
  exists l' : list MessageBlock,
    handleDragEnd (mkState [blockA; blockB; blockC] None None)
      (moveDrop "zzz" "b") env0 = Ok (idle l') /\
    Permutation [blockA; blockB; blockC] l' /\
    totalTokens (of_blocks l') = totalTokens (of_blocks [blockA; blockB; blockC]).
Proof.
  assert (H : [blockA; blockB; blockC] <> []) by discriminate.
  split; [exact H|].
  apply (reorder_permutes [blockA; blockB; blockC] None None env0 "zzz" "b" H).
Defined.

(** ** C10: the empty sequence *)



(** * Further properties *)

(** A reorder drop between two different ids on the empty sequence, at a
    concrete input. *)
Lemma handleDragEnd_empty_reorder_witness :
  "a"%string <> "b"%string /\
  handleDragEnd (mkState [] None None) (moveDrop "a" "b") env0
  = Ok {| messages := [None]; activeId := None; draggedType := None |} /\
  totalTokens [None] = TypeError.
Proof.
  assert (H : "a"%string <> "b"%string) by discriminate.
  split; [exact H|].
  apply (handleDragEnd_empty_reorder None None "a" "b" env0 H).
Defined.

(** [remove(id)] on a present id.  With pairwise different ids, deleting
    the id of the block at position [i] takes exactly that block out; the
    others keep their order, the gesture state is untouched, and
    [totalTokens] drops by the cost of the block. *)
Theorem remove_present :
  forall (l : list MessageBlock) (a : option string) (d : option BlockType)
         (i : nat) (b : MessageBlock),
    NoDup (map id l) ->
    nth_error l i = Some b ->
    handleDelete (mkState l a d) (id b) = Ok (mkState (remove_at i l) a d) /\
    totalTokens (of_blocks (remove_at i l)) = Ok (sum_tokens l - tokens b).
Proof.
  intros l a d i b Hnd Hb. split.
  - rewrite handleDelete_blocks. do 2 f_equal.
    revert i Hnd Hb; induction l as [|c l IH]; intros i Hnd Hb.
    + destruct i; discriminate.
    + simpl in Hnd. apply NoDup_cons_iff in Hnd. destruct Hnd as [Hnotin Hnd].
      destruct i as [|i]; simpl in Hb.
      * inversion Hb; subst. simpl. rewrite String.eqb_refl. simpl.
        now apply filter_absent.
      * simpl. destruct (String.eqb_spec (id c) (id b)) as [Heq|Hne].
        -- exfalso. apply Hnotin. rewrite Heq. apply in_map.
           eapply nth_error_In; eassumption.
        -- simpl. change (c :: filter (fun b0 => negb (id b0 =? id b)%string) l
                          = c :: remove_at i l).
           f_equal. now apply IH.
  - rewrite totalTokens_blocks. f_equal.
    pose proof (sum_tokens_perm _ _ (remove_at_perm l i b Hb)) as Hs.
    unfold sum_tokens in *. simpl in Hs. lia.
Qed.

Lemma remove_present_witness :
  handleDelete (mkState [blockA; blockB; blockC] None None) "b"
  = Ok (mkState [blockA; blockC] None None).
Proof.
  assert (Hnd : NoDup (map id [blockA; blockB; blockC])).
  { simpl. repeat constructor; simpl; intuition discriminate. }
  apply (remove_present [blockA; blockB; blockC] None None 1 blockB Hnd eq_refl).
Defined.

(** The example scenario of the specification, for every draw whose id is
    not ["system-1"]: from the initial block, a [user] palette drop gives
    two blocks, the last of kind [user], and [7 + cost] tokens; moving the
    new block over ["system-1"] puts it first; deleting ["system-1"] leaves
    it alone, with [cost] tokens. *)
Theorem scenario :
  forall (target : string) (env : Entropy),
    nanoid env <> "system-1"%string ->
    handleDragEnd initialState (paletteDrop user target) env
    = Ok (idle [initialBlock; newBlock user env]) /\
    type (newBlock user env) = user /\
    totalTokens (of_blocks [initialBlock; newBlock user env])
    = Ok (7 + tokens (newBlock user env)) /\
    handleDragEnd (idle [initialBlock; newBlock user env])
      (moveDrop (nanoid env) "system-1") env
    = Ok (idle [newBlock user env; initialBlock]) /\
    handleDelete (idle [newBlock user env; initialBlock]) "system-1"
    = Ok (idle [newBlock user env]) /\
    totalTokens (of_blocks [newBlock user env])
    = Ok (tokens (newBlock user env)).
Proof.
  intros target env Hne.
  assert (Hne' : "system-1"%string <> nanoid env) by congruence.
  apply String.eqb_neq in Hne'.
  split; [reflexivity|]. split; [reflexivity|].
  split.
  { rewrite totalTokens_blocks. unfold sum_tokens. cbn [map fold_right].
    change (tokens initialBlock) with 7.
    generalize (tokens (newBlock user env)). intros z. f_equal. lia. }
  split.
  - assert (P1 : position_of (nanoid env) [initialBlock; newBlock user env]
                 = 1%nat).
    { unfold position_of. cbn [index_of id initialBlock newBlock].
      now rewrite Hne', String.eqb_refl. }
    assert (P0 : position_of "system-1" [initialBlock; newBlock user env]
                 = 0%nat) by reflexivity.
    unfold idle at 1.
    rewrite (handleDragEnd_move [initialBlock; newBlock user env] None None
               (nanoid env) "system-1" env (newBlock user env) Hne)
      by now rewrite P1.
    now rewrite P0, P1.
  - split.
    + unfold idle. rewrite handleDelete_blocks. simpl.
      apply String.eqb_neq in Hne. now rewrite Hne.
    + rewrite totalTokens_blocks. unfold sum_tokens. cbn [map fold_right].
      generalize (tokens (newBlock user env)). intros z. f_equal. lia.
Qed.

Lemma scenario_witness :
  handleDelete (idle [newBlock user env0; initialBlock]) "system-1"
  = Ok (idle [newBlock user env0]).
Proof.
  assert (H : nanoid env0 <> "system-1"%string) by discriminate.
  apply (scenario "system-1" env0 H).
Defined.

(** ** Deleting *)

Lemma keep_twice (u v : string) (l : list MessageBlock) :
  filter (fun b => negb (String.eqb (id b) v))
    (filter (fun b => negb (String.eqb (id b) u)) l)
  = filter (fun b => negb (String.eqb (id b) u))
      (filter (fun b => negb (String.eqb (id b) v)) l).
Proof.
  induction l as [|b l IH]; [reflexivity|]. simpl.
  destruct (String.eqb (id b) u) eqn:Eu, (String.eqb (id b) v) eqn:Ev;
    simpl; rewrite ?Eu, ?Ev; simpl; now rewrite ?IH.
Qed.

Lemma run_two_deletes (l : list MessageBlock) (a : option string)
    (d : option BlockType) (u v : string) :
  run (mkState l a d) [Delete u; Delete v]
  = Ok (mkState (filter (fun b => negb (String.eqb (id b) v))
                   (filter (fun b => negb (String.eqb (id b) u)) l)) a d).
Proof.
  cbn [run dispatch]. rewrite handleDelete_blocks, bind_Ok.
  now rewrite handleDelete_blocks, bind_Ok.
Qed.

(** [handleDelete] on any sequence of blocks, with or without repeated
    ids: it returns, afterwards no block carries the id, the blocks with
    another id are all kept, in their order, and the gesture fields are
    left alone; [totalTokens] never grows. *)
Theorem delete_strikes_every_block_of_the_id :
  forall (l : list MessageBlock) (a : option string) (d : option BlockType)
         (u : string),
  exists l' : list MessageBlock,
    handleDelete (mkState l a d) u = Ok (mkState l' a d) /\
    ~ In u (map id l') /\
    (forall b : MessageBlock, In b l' <-> In b l /\ id b <> u) /\
    l' = filter (fun b => negb (String.eqb (id b) u)) l /\
    (length l' <= length l)%nat /\
    ((forall b, In b l -> 0 <= tokens b) -> sum_tokens l' <= sum_tokens l).
Proof.
  intros l a d u.
  exists (filter (fun b => negb (String.eqb (id b) u)) l).
  split; [apply handleDelete_blocks|].
  split.
  { intros Hin. apply in_map_iff in Hin. destruct Hin as [b [Hb Hin]].
    apply filter_In in Hin. destruct Hin as [_ Hk].
    rewrite Hb, String.eqb_refl in Hk. discriminate. }
  split.
  { intros b. rewrite filter_In. split; intros [Hin Hk]; split; trivial.
    - intros Heq. rewrite Heq, String.eqb_refl in Hk. discriminate.
    - apply String.eqb_neq in Hk. now rewrite Hk. }
  split; [reflexivity|].
  split; [apply filter_length_le|].
  intros Hpos. unfold sum_tokens.
  induction l as [|b l IH]; simpl; [lia|].
  assert (Hb : 0 <= tokens b) by (apply Hpos; now left).
  assert (IH' : fold_right Z.add 0
                  (map tokens (filter (fun b0 => negb (id b0 =? u)%string) l))
                <= fold_right Z.add 0 (map tokens l)).
  { apply IH. intros c Hc. apply Hpos. now right. }
  destruct (String.eqb (id b) u); simpl; lia.
Qed.

(** Chained deletions.  A row calls the [handleDelete] of the render that
    drew it, and that handler filters the [messages] of that render.  For
    two different ids [u] and [v] carried by blocks of [l]: deleting both
    through the handlers of the renders in which their rows stand takes the
    blocks of both away, in either order; a second click on the row of [u]
    while it leaves, through the handler it was drawn with, changes
    nothing; but that same click made after [v] was deleted sets the
    sequence to [l] without [u], which holds the blocks of [v] again. *)
Theorem deletes_compose :
  forall (l : list MessageBlock) (a : option string) (d : option BlockType)
         (u v : string),
    u <> v ->
    In u (map id l) ->
    In v (map id l) ->
    run (mkState l a d) [Delete u; Delete v]
    = Ok (mkState (filter (fun b => negb (String.eqb (id b) v))
                     (filter (fun b => negb (String.eqb (id b) u)) l)) a d) /\
    run (mkState l a d) [Delete u; Delete v]
    = run (mkState l a d) [Delete v; Delete u] /\
    (st1 <- handleDelete (mkState l a d) u ;;
     handleDelete_of (of_blocks l) st1 u)
    = handleDelete (mkState l a d) u /\
    (st2 <- run (mkState l a d) [Delete u; Delete v] ;;
     handleDelete_of (of_blocks l) st2 u)
    = handleDelete (mkState l a d) u /\
    (exists l1 : list MessageBlock,
        handleDelete (mkState l a d) u = Ok (mkState l1 a d) /\
        In v (map id l1) /\ ~ In u (map id l1)) /\
    (exists l2 : list MessageBlock,
        run (mkState l a d) [Delete u; Delete v] = Ok (mkState l2 a d) /\
        ~ In v (map id l2) /\ ~ In u (map id l2)).
Proof.
  intros l a d u v Hne Hu Hv.
  assert (Hgone : forall (x : string) (k : list MessageBlock),
             ~ In x (map id (filter (fun b => negb (String.eqb (id b) x)) k))).
  { intros x k Hin. apply in_map_iff in Hin. destruct Hin as [b [Hb Hin]].
    apply filter_In in Hin. destruct Hin as [_ Hk].
    rewrite Hb, String.eqb_refl in Hk. discriminate. }
  split; [apply run_two_deletes|].
  split; [rewrite !run_two_deletes; do 2 f_equal; apply keep_twice|].
  split; [now rewrite handleDelete_blocks, bind_Ok, handleDelete_of_blocks|].
  split.
  { now rewrite run_two_deletes, bind_Ok, handleDelete_of_blocks,
      handleDelete_blocks. }
  split.
  - eexists. split; [apply handleDelete_blocks|]. split; [|apply Hgone].
    apply in_map_iff in Hv. destruct Hv as [b [Hb Hin]].
    apply in_map_iff. exists b. split; [exact Hb|].
    apply filter_In. split; [exact Hin|].
    rewrite Hb. apply Bool.negb_true_iff, String.eqb_neq. congruence.
  - eexists. split; [apply run_two_deletes|]. split; [apply Hgone|].
    rewrite keep_twice. apply Hgone.
Qed.

Lemma deletes_compose_witness :
  (st2 <- run (mkState [blockA; blockB; blockC] None None)
            [Delete "a"; Delete "b"] ;;
   handleDelete_of (of_blocks [blockA; blockB; blockC]) st2 "a")
  = Ok (mkState [blockB; blockC] None None) /\
  run (mkState [blockA; blockB; blockC] None None) [Delete "a"; Delete "b"]
  = Ok (mkState [blockC] None None).
Proof.
  assert (Hne : "a"%string <> "b"%string) by discriminate.
  assert (Hu : In "a"%string (map id [blockA; blockB; blockC]))
    by (simpl; tauto).
  assert (Hv : In "b"%string (map id [blockA; blockB; blockC]))
    by (simpl; tauto).
  destruct (deletes_compose [blockA; blockB; blockC] None None "a" "b"
              Hne Hu Hv) as [H1 [_ [_ [H4 _]]]].
  split; [exact H4 | exact H1].
Defined.

(** ** A palette drop undone by a deletion *)

Lemma handleDragEnd_palette_blocks (l : list MessageBlock) (a : option string)
    (d : option BlockType) (ty : BlockType) (target : string) (env : Entropy) :
  handleDragEnd (mkState l a d) (paletteDrop ty target) env
  = Ok (idle (l ++ [newBlock ty env])).
Proof.
  unfold paletteDrop, sourceActive. rewrite handleDragEnd_source.
  unfold idle, mkState. cbn [messages].
  now rewrite <- of_blocks_app.
Qed.

(** Dropping a palette entry and then deleting the id it was given brings
    the sequence back, provided [nanoid()] returned an id that no block
    carried.  (When the id was already carried, the deletion takes the
    older blocks of that id away too.) *)
Theorem drop_then_delete_restores :
  forall (l : list MessageBlock) (a : option string) (d : option BlockType)
         (ty : BlockType) (target : string) (env : Entropy),
    ~ In (nanoid env) (map id l) ->
    run (mkState l a d)
      [DragEnd (paletteDrop ty target) env; Delete (nanoid env)]
    = Ok (idle l).
Proof.
  intros l a d ty target env Hfresh.
  cbn [run dispatch]. rewrite handleDragEnd_palette_blocks, bind_Ok.
  unfold idle at 1. rewrite handleDelete_blocks, bind_Ok.
  unfold idle. do 2 f_equal.
  rewrite filter_app, (filter_absent _ _ Hfresh). simpl.
  rewrite String.eqb_refl. simpl. apply app_nil_r.
Qed.

Lemma drop_then_delete_restores_witness :
  run (mkState [blockA; blockB] None None)
    [DragEnd (paletteDrop user "a") env0; Delete (nanoid env0)]
  = Ok (idle [blockA; blockB]).
Proof.
  apply (drop_then_delete_restores [blockA; blockB] None None user "a" env0).
  simpl. intros [H|[H|[]]]; discriminate.
Defined.

(** ** Moves that undo each other *)

Lemma position_of_index (x : string) (l : list MessageBlock) (n : nat) :
  index_of x l = Some n -> position_of x l = n.
Proof. intros H. unfold position_of. now rewrite H. Qed.

Lemma NoDup_nth_error_ids (l : list MessageBlock) (i j : nat)
    (b c : MessageBlock) :
  NoDup (map id l) ->
  nth_error l i = Some b -> nth_error l j = Some c -> id b = id c -> i = j.
Proof.
  intros Hnd Hb Hc Heq.
  apply (proj1 (NoDup_nth_error (map id l)) Hnd).
  - rewrite length_map. apply nth_error_Some. congruence.
  - rewrite !nth_error_map, Hb, Hc. simpl. now rewrite Heq.
Qed.

(** With pairwise different ids, after the row [s] was dropped over [t],
    dropping [s] over the row that now stands where [s] stood brings the
    former order back. *)
Theorem move_back_restores :
  forall (l : list MessageBlock) (a : option string) (d : option BlockType)
         (env : Entropy) (s t : string) (i j : nat),
    NoDup (map id l) ->
    s <> t ->
    index_of s l = Some i ->
    index_of t l = Some j ->
    exists (l' : list MessageBlock) (x : MessageBlock),
      handleDragEnd (mkState l a d) (moveDrop s t) env = Ok (idle l') /\
      nth_error l' i = Some x /\
      id x <> s /\
      handleDragEnd (idle l') (moveDrop s (id x)) env = Ok (idle l).
Proof.
  intros l a d env s t i j Hnd Hne Hi Hj.
  destruct (index_of_nth s l i Hi) as [b [Hb Hidb]].
  destruct (index_of_nth t l j Hj) as [c [Hc Hidc]].
  pose proof (index_of_lt s l i Hi) as Hilt.
  pose proof (index_of_lt t l j Hj) as Hjlt.
  assert (Hij : i <> j).
  { intros ->. rewrite Hb in Hc. inversion Hc; subst. congruence. }
  set (l' := insert_at j b (remove_at i l)).
  assert (Hlen : (j <= length (remove_at i l))%nat)
    by (rewrite remove_at_length; lia).
  assert (Hperm : Permutation l l') by now apply move_perm.
  assert (Hnd' : NoDup (map id l')).
  { eapply Permutation_NoDup; [|exact Hnd]. now apply Permutation_map. }
  assert (Hbj : nth_error l' j = Some b) by now apply insert_at_nth.
  assert (Hlen' : length l' = length l)
    by (symmetry; now apply Permutation_length).
  destruct (nth_error l' i) as [x|] eqn:Hx;
    [|apply nth_error_None in Hx; lia].
  assert (Hxs : id x <> s).
  { intros Heq. apply Hij.
    apply (NoDup_nth_error_ids l' i j x b Hnd' Hx Hbj). congruence. }
  exists l', x. split.
  { rewrite (handleDragEnd_move l a d s t env b Hne);
      rewrite (position_of_index s l i Hi); [|exact Hb].
    now rewrite (position_of_index t l j Hj). }
  split; [exact Hx|]. split; [exact Hxs|].
  assert (Hps : position_of s l' = j).
  { apply position_of_index. rewrite <- Hidb. now apply index_of_NoDup. }
  assert (Hpx : position_of (id x) l' = i).
  { apply position_of_index. now apply index_of_NoDup. }
  unfold idle at 1.
  rewrite (handleDragEnd_move l' None None s (id x) env b);
    rewrite ?Hps, ?Hpx; try assumption; [|congruence].
  do 2 f_equal. unfold l'.
  rewrite remove_insert_at by assumption. now apply move_same.
Qed.

Lemma move_back_restores_witness :
  exists (l' : list MessageBlock) (x : MessageBlock),
    handleDragEnd (mkState [blockA; blockB; blockC] None None)
      (moveDrop "a" "c") env0 = Ok (idle l') /\
    nth_error l' 0 = Some x /\
    id x <> "a"%string /\
    handleDragEnd (idle l') (moveDrop "a" (id x)) env0
    = Ok (idle [blockA; blockB; blockC]).
Proof.
  apply (move_back_restores [blockA; blockB; blockC] None None env0
           "a" "c" 0 2).
  - simpl. repeat constructor; simpl; intuition discriminate.
  - discriminate.
  - reflexivity.
  - reflexivity.
Defined.

Lemma index_of_app_absent (x : string) (l1 l2 : list MessageBlock) :
  ~ In x (map id l1) ->
  index_of x (l1 ++ l2) = option_map (Nat.add (length l1)) (index_of x l2).
Proof.
  induction l1 as [|b l1 IH]; intros Hx; simpl.
  - now destruct (index_of x l2).
  - destruct (String.eqb_spec (id b) x) as [Heq|Hn].
    + exfalso. apply Hx. now left.
    + rewrite IH by (intros H; apply Hx; now right).
      now destruct (index_of x l2).
Qed.

Lemma remove_at_app (A : Type) (l1 l2 : list A) (k : nat) :
  remove_at (length l1 + k) (l1 ++ l2) = l1 ++ remove_at k l2.
Proof.
  induction l1 as [|y l1 IH]; [reflexivity|].
  change (y :: remove_at (length l1 + k) (l1 ++ l2)
          = y :: l1 ++ remove_at k l2).
  now rewrite IH.
Qed.

Lemma insert_at_app (A : Type) (l1 l2 : list A) (k : nat) (x : A) :
  insert_at (length l1 + k) x (l1 ++ l2) = l1 ++ insert_at k x l2.
Proof.
  induction l1 as [|y l1 IH]; [reflexivity|].
  change (y :: insert_at (length l1 + k) x (l1 ++ l2)
          = y :: l1 ++ insert_at k x l2).
  now rewrite IH.
Qed.

(** Between two neighbouring rows the direction of the drag does not
    matter: dropping the upper one over the lower one and dropping the
    lower one over the upper one both exchange the two and leave every
    other row in place. *)
Theorem neighbours_swap :
  forall (l1 l2 : list MessageBlock) (x y : MessageBlock)
         (a : option string) (d : option BlockType) (env : Entropy),
    ~ In (id x) (map id l1) ->
    ~ In (id y) (map id l1) ->
    id x <> id y ->
    handleDragEnd (mkState (l1 ++ x :: y :: l2) a d)
      (moveDrop (id x) (id y)) env
    = Ok (idle (l1 ++ y :: x :: l2)) /\
    handleDragEnd (mkState (l1 ++ x :: y :: l2) a d)
      (moveDrop (id y) (id x)) env
    = Ok (idle (l1 ++ y :: x :: l2)).
Proof.
  intros l1 l2 x y a d env Hx Hy Hne.
  assert (Hne' : id y <> id x) by congruence.
  assert (Px : position_of (id x) (l1 ++ x :: y :: l2) = (length l1 + 0)%nat).
  { apply position_of_index. rewrite index_of_app_absent by assumption.
    simpl. now rewrite String.eqb_refl. }
  assert (Py : position_of (id y) (l1 ++ x :: y :: l2) = (length l1 + 1)%nat).
  { apply position_of_index. rewrite index_of_app_absent by assumption.
    simpl. apply String.eqb_neq in Hne. now rewrite Hne, String.eqb_refl. }
  split.
  - rewrite (handleDragEnd_move _ a d (id x) (id y) env x Hne).
    + rewrite Px, Py, remove_at_app, insert_at_app. reflexivity.
    + rewrite Px, Nat.add_0_r, nth_error_app2, Nat.sub_diag by lia.
      reflexivity.
  - rewrite (handleDragEnd_move _ a d (id y) (id x) env y Hne').
    + rewrite Px, Py, remove_at_app, insert_at_app. reflexivity.
    + rewrite Py, nth_error_app2 by lia.
      replace (length l1 + 1 - length l1)%nat with 1%nat by lia.
      reflexivity.
Qed.

Lemma neighbours_swap_witness :
  handleDragEnd (mkState ([blockA] ++ blockB :: blockC :: []) None None)
    (moveDrop "b" "c") env0
  = Ok (idle ([blockA] ++ blockC :: blockB :: [])) /\
  handleDragEnd (mkState ([blockA] ++ blockB :: blockC :: []) None None)
    (moveDrop "c" "b") env0
  = Ok (idle ([blockA] ++ blockC :: blockB :: [])).
Proof.
  apply (neighbours_swap [blockA] [] blockB blockC None None env0).
  - simpl. intros [H|[]]; discriminate.
  - simpl. intros [H|[]]; discriminate.
  - discriminate.
Defined.

(** ** Several palette drops in a row *)

Lemma sum_tokens_app (l l' : list MessageBlock) :
  sum_tokens (l ++ l') = sum_tokens l + sum_tokens l'.
Proof.
  unfold sum_tokens. induction l as [|b l IH]; simpl; lia.
Qed.

Lemma blockOf_tokens_range (dr : BlockType * string * Entropy) :
  unit_draw (Math_random (snd dr)) = true -> 5 <= tokens (blockOf dr) <= 24.
Proof.
  destruct dr as [[ty target] env]. intros H.
  exact (newBlock_tokens_range ty env H).
Qed.

(** Palette drops pile up at the end, in the order of the drops, whatever
    their targets; nothing that was there moves.  [totalTokens] grows by
    the costs of the new blocks, between 5 and 24 for each drop, the costs
    being computed in binary64 from draws in [0, 1). *)
Theorem palette_drops_accumulate :
  forall (drops : list (BlockType * string * Entropy))
         (l : list MessageBlock) (a : option string) (d : option BlockType),
    Forall (fun dr => unit_draw (Math_random (snd dr)) = true) drops ->
    (exists st' : State,
        run (mkState l a d) (map dropOf drops) = Ok st' /\
        messages st' = of_blocks (l ++ map blockOf drops)) /\
    totalTokens (of_blocks (l ++ map blockOf drops))
    = Ok (sum_tokens l + sum_tokens (map blockOf drops)) /\
    5 * Z.of_nat (length drops) <= sum_tokens (map blockOf drops)
      <= 24 * Z.of_nat (length drops).
Proof.
  intros drops l a d Hrange. split; [|split].
  - clear Hrange. revert l a d.
    induction drops as [|[[ty target] env] drops IH]; intros l a d.
    + exists (mkState l a d). split; [reflexivity|].
      simpl. now rewrite app_nil_r.
    + cbn [map dropOf run dispatch].
      rewrite handleDragEnd_palette_blocks, bind_Ok.
      destruct (IH (l ++ [newBlock ty env]) None None) as [st' [Hrun Hm]].
      exists st'. split; [exact Hrun|].
      rewrite Hm. cbn [map blockOf]. now rewrite <- app_assoc.
  - rewrite totalTokens_blocks. now rewrite sum_tokens_app.
  - induction Hrange as [|dr drops Hdr _ IH].
    + unfold sum_tokens. simpl. lia.
    + pose proof (blockOf_tokens_range dr Hdr) as Hb.
      change (map blockOf (dr :: drops))
        with ([blockOf dr] ++ map blockOf drops).
      rewrite sum_tokens_app.
      replace (sum_tokens [blockOf dr]) with (tokens (blockOf dr))
        by (unfold sum_tokens; simpl; lia).
      cbn [length]. lia.
Qed.

Lemma palette_drops_accumulate_witness :
  (exists st' : State,
      run (mkState [initialBlock] None None)
        (map dropOf [(user, "system-1"%string, env0);
                     (assistant, "nowhere"%string, env07)]) = Ok st' /\
      messages st'
      = of_blocks ([initialBlock]
                   ++ map blockOf [(user, "system-1"%string, env0);
                                   (assistant, "nowhere"%string, env07)])) /\
  sum_tokens (map blockOf [(user, "system-1"%string, env0);
                           (assistant, "nowhere"%string, env07)]) = 34.
Proof.
  split; [|reflexivity].
  apply (palette_drops_accumulate
           [(user, "system-1"%string, env0);
            (assistant, "nowhere"%string, env07)]
           [initialBlock] None None).
  repeat constructor.
Defined.

(** ** What every reachable block looks like *)

Section Invariant.

Variable P : MessageBlock -> Prop.
Hypothesis P_initial : P initialBlock.
Hypothesis P_new :
  forall (ty : BlockType) (env : Entropy),
    unit_draw (Math_random env) = true -> P (newBlock ty env).

(** A property of the initial block and of every block a palette drop can
    make holds of all blocks of all reachable states: no handler edits a
    block. *)
Lemma reachable_Forall (st : State) :
  reachable st -> exists l, messages st = of_blocks l /\ Forall P l.
Proof.
  induction 1 as [|st st' ev Hreach [l [Hm HP]] Hadm Hstep
                  |st st0 st' u Hreach [l [Hm HP]] Hreach0 [l0 [Hm0 HP0]]
                     Hstep].
  - exists [initialBlock]. split; [reflexivity|]. now constructor.
  - rewrite (state_of_blocks st l Hm) in Hadm, Hstep.
    destruct ev as [event|event env|u|]; cbn [dispatch] in Hstep.
    + inversion Hstep; subst. exists l.
      now rewrite handleDragStart_messages.
    + destruct (handleDragEnd_origin _ _ _ _ _ _ Hadm Hstep)
        as [l' [-> [Hperm|[ty [target [Hov [Hdata [-> Hrange]]]]]]]].
      * exists l'. split; [reflexivity|].
        eapply Permutation_Forall; eassumption.
      * eexists. split; [reflexivity|].
        apply Forall_app. split; [assumption|].
        constructor; [now apply P_new | constructor].
    + rewrite handleDelete_blocks in Hstep. inversion Hstep; subst.
      eexists. split; [reflexivity|].
      apply Forall_forall. intros b Hb. apply filter_In in Hb.
      rewrite Forall_forall in HP. now apply HP.
    + inversion Hstep; subst. exists [initialBlock].
      split; [reflexivity|]. now constructor.
  - rewrite (state_of_blocks st l Hm), Hm0, handleDelete_of_blocks in Hstep.
    inversion Hstep; subst.
    eexists. split; [reflexivity|].
    apply Forall_forall. intros b Hb. apply filter_In in Hb.
    rewrite Forall_forall in HP0. now apply HP0.
Qed.

End Invariant.




(** In every reachable state a block is the initial system block or shows
    the fixed text of its kind: no handler writes any other content, and
    none changes the kind or the content of a block. *)
Theorem reachable_content_by_kind :
  forall st : State,
    reachable st ->
    exists l : list MessageBlock,
      messages st = of_blocks l /\
      Forall (fun b =>
                b = {| id := "system-1"; type := system;
                       content := "You are a helpful AI assistant.";
                       tokens := 7 |}
                \/ content b
                   = match type b with
                     | user => "Can you explain quantum computing simply?"
                     | assistant =>
                         "Quantum computing uses quantum bits or qubits..."
                     | system => "You are an expert in physics."
                     end%string) l.
Proof.
  intros st Hreach.
  apply reachable_Forall; try assumption.
  - now left.
  - intros ty env _. right. now destruct ty.
Qed.

Lemma reachable_content_by_kind_witness :
  reachable twoBlocks /\
  exists l : list MessageBlock,
    messages twoBlocks = of_blocks l /\
    Forall (fun b =>
              b = {| id := "system-1"; type := system;
                     content := "You are a helpful AI assistant.";
                     tokens := 7 |}
              \/ content b
                 = match type b with
                   | user => "Can you explain quantum computing simply?"
                   | assistant =>
                       "Quantum computing uses quantum bits or qubits..."
                   | system => "You are an expert in physics."
                   end%string) l.
Proof.
  assert (H : reachable twoBlocks).
  { apply (reachable_step initialState twoBlocks
             (DragEnd (paletteDrop user "system-1") env0)).
    - apply reachable_init.
    - reflexivity.
    - reflexivity. }
  split; [exact H|].
  apply (reachable_content_by_kind twoBlocks H).
Defined.

(** No handler edits a block: after any event on a sequence of blocks,
    every block of the new array was in the sequence before, or is the
    initial block (reset), or is the block the palette drop made. *)
Theorem handlers_never_edit_blocks :
  forall (l : list MessageBlock) (a : option string) (d : option BlockType)
         (ev : Event) (st' : State),
    dispatch (mkState l a d) ev = Ok st' ->
    forall b : MessageBlock,
      In (Some b) (messages st') ->
      In b l \/
      (ev = Reset /\ b = initialBlock) \/
      (exists (event : DragEndEvent) (env : Entropy) (ty : BlockType),
          ev = DragEnd event env /\
          data_current (active event) = Some (SourceData ty) /\
          b = newBlock ty env).
Proof.
  intros l a d ev st' Hstep b Hb.
  assert (Hin : forall l', In (Some b) (of_blocks l') -> In b l').
  { intros l' H. apply in_map_iff in H. destruct H as [c [Hc H]].
    now inversion Hc; subst. }
  assert (Hmove : forall s t env,
             handleDragEnd (mkState l a d) (moveDrop s t) env = Ok st' ->
             In b l).
  { intros s t env H. destruct l as [|c l0].
    - destruct (string_dec s t) as [->|Hne].
      + rewrite handleDragEnd_self in H. inversion H; subst.
        destruct Hb.
      + rewrite handleDragEnd_reorder in H by assumption.
        cbn [messages mkState] in H. rewrite reorder_empty in H.
        inversion H; subst. destruct Hb as [Hb|[]]. discriminate.
    - destruct (moveDrop_permutes (c :: l0) a d s t env st') as [l' [-> Hp]];
        [discriminate | assumption |].
      apply Hin in Hb. eapply Permutation_in; [symmetry; exact Hp | exact Hb]. }
  destruct ev as [event|event env|u|]; cbn [dispatch] in Hstep.
  - inversion Hstep; subst. rewrite handleDragStart_messages in Hb.
    left. now apply Hin.
  - destruct event as [[aid data] [target|]].
    + destruct data as [[ty|]|].
      * rewrite handleDragEnd_source in Hstep. inversion Hstep; subst.
        cbn [messages mkState] in Hb. apply in_app_or in Hb.
        destruct Hb as [Hb|[Hb|[]]].
        -- left. now apply Hin.
        -- right. right. inversion Hb; subst.
           eexists _, env, ty. repeat split.
      * left. exact (Hmove aid target env Hstep).
      * left. rewrite handleDragEnd_no_data in Hstep.
        exact (Hmove aid target env Hstep).
    + rewrite handleDragEnd_cancel in Hstep. inversion Hstep; subst.
      left. now apply Hin.
  - rewrite handleDelete_blocks in Hstep. inversion Hstep; subst.
    left. apply Hin in Hb. apply filter_In in Hb. tauto.
  - inversion Hstep; subst. destruct Hb as [Hb|[]].
    inversion Hb; subst. right. left. now split.
Qed.

Lemma handlers_never_edit_blocks_witness :
  In blockC [blockA; blockB; blockC] \/
  (DragEnd (moveDrop "c" "a") env0 = Reset /\ blockC = initialBlock) \/
  (exists (event : DragEndEvent) (env : Entropy) (ty : BlockType),
      DragEnd (moveDrop "c" "a") env0 = DragEnd event env /\
      data_current (active event) = Some (SourceData ty) /\
      blockC = newBlock ty env).
Proof.
  apply (handlers_never_edit_blocks [blockA; blockB; blockC] None None
           (DragEnd (moveDrop "c" "a") env0)
           (idle [blockC; blockA; blockB])).
  - reflexivity.
  - simpl. left. reflexivity.
Defined.

(** ** The usage bar *)

(** The bar is never narrower than 2 percent: up to 81 tokens it shows
    exactly 2, from 82 tokens on it shows [usagePercent], and it is not
    capped at 100: it is wider than 100 percent exactly when [totalTokens]
    exceeds [maxContext]. *)
Theorem usage_bar_width :
  forall t : Z,
    (2 <= barWidth t)%Q /\
    (usagePercent t <= barWidth t)%Q /\
    (t <= 81 -> (barWidth t == 2)%Q) /\
    (82 <= t -> (barWidth t == usagePercent t)%Q) /\
    ((100 < barWidth t)%Q <-> maxContext < t).
Proof.
  intros t.
  assert (Hle : (usagePercent t <= 2)%Q <-> t <= 81).
  { unfold usagePercent, usageRatio, maxContext, Qle. simpl. lia. }
  assert (H100 : (100 < usagePercent t)%Q <-> 4096 < t).
  { unfold usagePercent, usageRatio, maxContext, Qlt. simpl. lia. }
  unfold barWidth, Math_max.
  destruct (Qle_bool (usagePercent t) 2) eqn:E.
  - apply Qle_bool_iff in E. pose proof (proj1 Hle E) as Ht.
    split; [apply Qle_refl|]. split; [exact E|].
    split; [reflexivity|]. split; [lia|].
    unfold maxContext. split.
    + intros H. exfalso. revert H. unfold Qlt. simpl. lia.
    + lia.
  - assert (Hgt : (2 < usagePercent t)%Q).
    { apply Qnot_le_lt. intros H. apply Qle_bool_iff in H. congruence. }
    split; [now apply Qlt_le_weak|]. split; [apply Qle_refl|].
    split.
    + intros Ht. apply Hle in Ht. exfalso.
      apply (Qlt_irrefl 2). eapply Qlt_le_trans; eassumption.
    + split; [reflexivity|]. exact H100.
Qed.

(** ** The drag overlay *)

Lemma find_blocks (x : string) (l : list MessageBlock) :
  Js.find (fun m => y <- get_id m ;; Ok (String.eqb y x)) (of_blocks l)
  = Ok (match index_of x l with
        | Some n => nth_error l n
        | None => None
        end).
Proof.
  induction l as [|b l IH]; [reflexivity|].
  cbn [of_blocks map Js.find get_id bind index_of]. fold (of_blocks l).
  destruct (String.eqb (id b) x); [reflexivity|].
  rewrite IH. now destruct (index_of x l).
Qed.

Lemma handleDragEnd_clears (st : State) (event : DragEndEvent)
    (env : Entropy) (st' : State) :
  handleDragEnd st event env = Ok st' ->
  activeId st' = None /\ draggedType st' = None.
Proof.
  unfold handleDragEnd, updateMessages.
  destruct (over event) as [target|].
  - destruct (data_current (active event)) as [[ty|]|].
    + cbn. intros H; inversion H; subst. now split.
    + destruct (negb _).
      * destruct (reorder _ _ _) as [items|]; cbn; intros H;
          inversion H; subst. now split.
      * intros H; inversion H; subst. now split.
    + destruct (negb _).
      * destruct (reorder _ _ _) as [items|]; cbn; intros H;
          inversion H; subst. now split.
      * intros H; inversion H; subst. now split.
  - intros H; inversion H; subst. now split.
Qed.

Lemma dragOverlay_row (l : list MessageBlock) (x : string) :
  x <> ""%string ->
  dragOverlay (mkState l (Some x) None)
  = Ok [RowOverlay match index_of x l with
                   | Some n => nth_error l n
                   | None => None
                   end].
Proof.
  intros Hx. apply String.eqb_neq in Hx.
  unfold dragOverlay, mkState, truthy. cbn [activeId draggedType messages].
  rewrite Hx. cbn [negb]. now rewrite find_blocks, bind_Ok.
Qed.

Lemma dragOverlay_absent (l : list MessageBlock) (x : string) :
  x <> ""%string ->
  ~ In x (map id l) ->
  dragOverlay (mkState l (Some x) None) = Ok [RowOverlay None].
Proof.
  intros Hx Hin. rewrite (dragOverlay_row l x Hx).
  apply index_of_None in Hin. now rewrite Hin.
Qed.

(** On a sequence of blocks the children of the overlay are always
    built; mounting them fails exactly for a row element whose [message]
    is [undefined]: a non-empty [activeId] that no block carries, with no
    [draggedType]. *)
Lemma dragOverlay_blocks (l : list MessageBlock) (a : option string)
    (d : option BlockType) :
  exists o : list Overlay,
    dragOverlay (mkState l a d) = Ok o /\
    DragOverlay false o = Ok [] /\
    (DragOverlay true o = TypeError <->
     exists x : string,
       a = Some x /\ x <> ""%string /\ d = None /\ index_of x l = None) /\
    (DragOverlay true o <> TypeError -> DragOverlay true o = Ok o).
Proof.
  destruct d as [ty|].
  - exists [SourceOverlay ty]. split; [now destruct a|].
    split; [reflexivity|]. split; [|reflexivity].
    split; [discriminate|]. intros [x [_ [_ [H _]]]]. discriminate.
  - destruct a as [x|].
    + destruct (string_dec x "") as [->|Hx].
      * exists []. repeat split; try discriminate.
        intros [y [Hy [Hne _]]]. inversion Hy; subst. now elim Hne.
      * eexists. split; [apply (dragOverlay_row l x Hx)|].
        split; [reflexivity|].
        destruct (index_of x l) as [n|] eqn:Hi.
        -- destruct (index_of_nth x l n Hi) as [b [Hb _]]. rewrite Hb.
           split; [|reflexivity].
           split; [discriminate|].
           intros [y [Hy [_ [_ Hnone]]]]. inversion Hy; subst. congruence.
        -- split; [|intros H; now elim H].
           split; [|reflexivity]. intros _. now exists x.
    + exists []. repeat split; try discriminate.
      intros [y [Hy _]]. discriminate.
Qed.

(** The overlay follows the gesture.  After any drag-end that returns
    there is no overlay, as in any state with neither [activeId] nor
    [draggedType]; after the drag-start of a palette entry the overlay is
    that entry; after the drag-start of a row with a non-empty id, from a
    state whose [draggedType] is null, it is the first block carrying the
    id, which [DragOverlay] mounts during the drag.  The overlay never
    holds more than one element. *)
Theorem overlay_follows_gesture :
  (forall (st : State) (event : DragEndEvent) (env : Entropy) (st' : State),
      handleDragEnd st event env = Ok st' -> dragOverlay st' = Ok []) /\
  (forall st : State,
      activeId st = None -> draggedType st = None -> dragOverlay st = Ok []) /\
  (forall (st : State) (ty : BlockType),
      dragOverlay (handleDragStart st {| start_active := sourceActive ty |})
      = Ok [SourceOverlay ty]) /\
  (forall (l : list MessageBlock) (a : option string) (x : string)
          (i : nat) (b : MessageBlock),
      x <> ""%string ->
      index_of x l = Some i ->
      nth_error l i = Some b ->
      dragOverlay
        (handleDragStart (mkState l a None)
           {| start_active := sortableActive x |})
      = Ok [RowOverlay (Some b)] /\
      DragOverlay true [RowOverlay (Some b)] = Ok [RowOverlay (Some b)]) /\
  (forall (st : State) (o : list Overlay),
      dragOverlay st = Ok o -> (length o <= 1)%nat).
Proof.
  assert (Hidle : forall st : State,
             activeId st = None -> draggedType st = None ->
             dragOverlay st = Ok []).
  { intros st Ha Hd. unfold dragOverlay. now rewrite Ha, Hd. }
  split; [|split; [exact Hidle|split; [|split]]].
  - intros st event env st' H.
    destruct (handleDragEnd_clears st event env st' H). now apply Hidle.
  - intros st ty. reflexivity.
  - intros l a x i b Hx Hi Hb.
    change (handleDragStart (mkState l a None)
              {| start_active := sortableActive x |})
      with (mkState l (Some x) None).
    rewrite (dragOverlay_row l x Hx). now rewrite Hi, Hb.
  - intros st o. unfold dragOverlay.
    destruct (activeId st) as [x|], (draggedType st) as [ty|];
      try (intros H; inversion H; subst; simpl; lia).
    destruct (truthy (Some x)).
    + destruct (Js.find _ _) as [m|]; cbn; intros H; inversion H; subst.
      simpl. lia.
    + intros H; inversion H; subst. simpl. lia.
Qed.

(** ** Rendering *)

Lemma map_blocks (l : list MessageBlock) :
  Js.map SortableMessage (of_blocks l) = Ok l.
Proof.
  induction l as [|b l IH]; [reflexivity|].
  cbn [of_blocks map Js.map SortableMessage bind]. fold (of_blocks l).
  now rewrite IH.
Qed.

Lemma reduce_undefined (a : Js.array MessageBlock) (acc : Z) :
  In None a ->
  Js.reduce (fun acc msg => t <- get_tokens msg ;; Ok (acc + t)) a acc
  = TypeError.
Proof.
  revert acc; induction a as [|m a IH]; intros acc Hin; [destruct Hin|].
  destruct m as [b|]; [|reflexivity].
  destruct Hin as [H|H]; [discriminate|].
  cbn [Js.reduce get_tokens bind]. now apply IH.
Qed.

Lemma render_blocks (l : list MessageBlock) (a : option string)
    (d : option BlockType) (o : list Overlay) :
  dragOverlay (mkState l a d) = Ok o ->
  render (mkState l a d) = Ok (view_of l o).
Proof.
  intros Ho. unfold render. cbn [messages mkState].
  rewrite totalTokens_blocks, bind_Ok, map_blocks, bind_Ok.
  fold (mkState l a d). rewrite Ho, bind_Ok.
  unfold view_of. do 2 f_equal. now destruct l.
Qed.

Lemma render_undefined (st : State) :
  In None (messages st) -> render st = TypeError.
Proof.
  intros Hin. unfold render, totalTokens.
  now rewrite (reduce_undefined _ 0 Hin).
Qed.

(** The edges of the overlay.
    - [handleDragStart] never clears [draggedType]: a row picked up while
      a kind is still recorded (a palette drag that saw no drag-end) shows
      the palette entry of that kind, not the row.
    - A row drag whose id no block carries hands [DragOverlay] a row
      element whose [message] is [undefined]: building it does not throw;
      mounting it, which [DragOverlay] does only while the drag is active,
      throws; with no active drag nothing is mounted.
    - Deleting the row that is being dragged leads there: the component
      body still evaluates, the page throws while the drag is active and
      renders, without overlay, once it is not.
    - An empty id is falsy: no overlay, no throw. *)
Theorem overlay_edges :
  forall (l : list MessageBlock) (a : option string) (x : string),
    (forall ty : BlockType,
        dragOverlay
          (handleDragStart (mkState l a (Some ty))
             {| start_active := sortableActive x |})
        = Ok [SourceOverlay ty]) /\
    (x <> ""%string ->
     index_of x l = None ->
     dragOverlay
       (handleDragStart (mkState l a None)
          {| start_active := sortableActive x |})
     = Ok [RowOverlay None] /\
     DragOverlay true [RowOverlay None] = TypeError /\
     DragOverlay false [RowOverlay None] = Ok []) /\
    (x <> ""%string ->
     exists (st' : State) (v : View),
       run (mkState l a None)
         [DragStart {| start_active := sortableActive x |}; Delete x]
       = Ok st' /\
       dragOverlay st' = Ok [RowOverlay None] /\
       render st' = Ok v /\
       renderPage true st' = TypeError /\
       renderPage false st' = Ok (v, [])) /\
    dragOverlay
      (handleDragStart (mkState l a None)
         {| start_active := sortableActive "" |})
    = Ok [].
Proof.
  intros l a x. split; [|split; [|split]].
  - intros ty. reflexivity.
  - intros Hx Hi.
    change (handleDragStart (mkState l a None)
              {| start_active := sortableActive x |})
      with (mkState l (Some x) None).
    rewrite (dragOverlay_row l x Hx), Hi. repeat split.
  - intros Hx. cbn [run dispatch]. rewrite bind_Ok.
    change (handleDragStart (mkState l a None)
              {| start_active := sortableActive x |})
      with (mkState l (Some x) None).
    rewrite handleDelete_blocks, bind_Ok.
    set (l' := filter (fun b => negb (id b =? x)%string) l).
    assert (Hov : dragOverlay (mkState l' (Some x) None)
                  = Ok [RowOverlay None]).
    { apply (dragOverlay_absent l' x Hx). intros Hin.
      apply in_map_iff in Hin. destruct Hin as [b [Hb Hin]].
      apply filter_In in Hin. destruct Hin as [_ Hk].
      rewrite Hb, String.eqb_refl in Hk. discriminate. }
    pose proof (render_blocks l' (Some x) None _ Hov) as Hr.
    exists (mkState l' (Some x) None), (view_of l' [RowOverlay None]).
    split; [reflexivity|]. split; [exact Hov|]. split; [exact Hr|].
    unfold renderPage. rewrite Hr. split; reflexivity.
  - reflexivity.
Qed.

(** One render of a state.
    - On a sequence of blocks the component body always evaluates: it
      shows the blocks in their order, the placeholder exactly when there
      is none, the sum of the costs and the bar at [barWidth] of it, and
      hands [DragOverlay] its children.
    - With no active drag the page renders, and shows no overlay.
    - With an active drag the page throws exactly when [activeId] is a
      non-empty id that no block carries and [draggedType] is null;
      otherwise it shows the children.
    - A state with an [undefined] slot cannot be rendered: [totalTokens]
      throws first. *)
Theorem render_of_state :
  (forall (l : list MessageBlock) (a : option string) (d : option BlockType),
    exists o : list Overlay,
      dragOverlay (mkState l a d) = Ok o /\
      render (mkState l a d) = Ok (view_of l o) /\
      renderPage false (mkState l a d) = Ok (view_of l o, []) /\
      (renderPage true (mkState l a d) = TypeError <->
       exists x : string,
         a = Some x /\ x <> ""%string /\ d = None /\ index_of x l = None) /\
      (renderPage true (mkState l a d) <> TypeError ->
       renderPage true (mkState l a d) = Ok (view_of l o, o))) /\
  (forall (st : State) (dndActive : bool),
      In None (messages st) ->
      render st = TypeError /\ renderPage dndActive st = TypeError).
Proof.
  split.
  - intros l a d.
    destruct (dragOverlay_blocks l a d) as [o [Ho [Hoff [Hthrow Hshow]]]].
    pose proof (render_blocks l a d o Ho) as Hr.
    exists o. split; [exact Ho|]. split; [exact Hr|].
    unfold renderPage. rewrite Hr, !bind_Ok.
    cbn [view_overlay view_of]. rewrite Hoff.
    split; [reflexivity|].
    destruct (DragOverlay true o) as [shown|] eqn:Hm.
    + split.
      * split; [discriminate|]. intros H. apply Hthrow in H. discriminate.
      * intros _. cbn [bind]. f_equal. f_equal.
        assert (H : Ok shown = Ok o) by (apply Hshow; discriminate).
        now inversion H.
    + split.
      * split; [intros _; now apply Hthrow | reflexivity].
      * intros H. now elim H.
  - intros st dndActive Hin.
    pose proof (render_undefined st Hin) as Hr.
    split; [exact Hr|]. unfold renderPage. now rewrite Hr.
Qed.


